(** * A shallow embedding of the parser-combinator engine of [src/index.js]

    The development follows the source file top to bottom: the suggestion
    registry, the [Parser] class, the three state-updating helpers, the
    primitive matchers and the combinators.  Every transform function of the
    source becomes a Rocq function with the same name.

    Modelling choices.
    - A JavaScript string is the list of its UTF-16 code units.
    - A JavaScript value that can sit in [result], [error] or
      [lastMatchedToken] is a [Value]; numbers are the integers (every offset
      the engine computes is one, and exact below 2^53).
    - The process-wide [suggestions] object and the console are the [World];
      a transform function takes the world and returns the new one.  The
      [suggestions] object holds the sets that were filed, as a map from keys
      to sets; being a plain object, it also answers to the property names
      of [Object.prototype], under which [addSuggestion] raises.
    - The [while] loops of the source need not terminate, and [addSuggestion]
      and [sequenceSepBy] can raise a [TypeError]: a transform function
      returns a [Res], and takes a bound on the number of iterations of every
      loop it runs. *)

From Stdlib Require Import ZArith String Ascii DecimalString Lia.
From stdpp Require Import gmap list.

Open Scope Z_scope.

(** ** Strings and values *)

Definition jsstring := list N.

Definition js (s : string) : jsstring := map N_of_ascii (list_ascii_of_string s).
Arguments js _%_string : simpl never.

#[local] Set Warnings "-register-all".

Inductive Value : Type :=
| VUndefined
| VNull
| VNum (z : Z)
| VStr (s : jsstring)
| VArr (l : list Value).

Definition number_toString (z : Z) : jsstring :=
  js (NilZero.string_of_int (Z.to_int z)).
Arguments number_toString : simpl never.

(** [String(v)], as a template literal and a property access apply it.  An
    array is joined with commas, [null] and [undefined] elements giving the
    empty string. *)
Fixpoint toString (v : Value) : jsstring :=
  match v with
  | VUndefined => js "undefined"
  | VNull => js "null"
  | VNum z => number_toString z
  | VStr s => s
  | VArr l =>
      (fix join (l : list Value) : jsstring :=
         match l with
         | [] => []
         | x :: rest =>
             let e := match x with
                      | VUndefined | VNull => []
                      | _ => toString x
                      end in
             match rest with
             | [] => e
             | _ :: _ => e ++ js "," ++ join rest
             end
         end) l
  end.

(** The truthiness test of [if (v)] and [v && ...]. *)
Definition truthy (v : Value) : bool :=
  match v with
  | VUndefined | VNull => false
  | VNum z => negb (z =? 0)
  | VStr s => match s with [] => false | _ :: _ => true end
  | VArr _ => true
  end.

(** [t.slice(start)] and [t.slice(start, stop)]: a negative offset counts from
    the end, and both offsets are clamped to the string. *)
Definition clamp (len i : Z) : Z :=
  if i <? 0 then Z.max (len + i) 0 else Z.min i len.

Definition slice_from (t : jsstring) (start : Z) : jsstring :=
  drop (Z.to_nat (clamp (Z.of_nat (length t)) start)) t.

Definition slice (t : jsstring) (start stop : Z) : jsstring :=
  let len := Z.of_nat (length t) in
  let from := clamp len start in
  let to := clamp len stop in
  take (Z.to_nat (to - from)) (drop (Z.to_nat from) t).

Fixpoint startsWith (t s : jsstring) : bool :=
  match s, t with
  | [], _ => true
  | _ :: _, [] => false
  | c :: s', d :: t' => (c =? d)%N && startsWith t' s'
  end.

(** [t[i]]: the one-character string at offset [i], [undefined] outside. *)
Definition charAt (t : jsstring) (i : Z) : Value :=
  if i <? 0 then VUndefined
  else match t !! Z.to_nat i with
       | Some c => VStr [c]
       | None => VUndefined
       end.

(** ** Regular expressions

    The regular-expression engine belongs to the host.  A non-global regular
    expression is what the source uses of it: its text, as [toString] prints
    it, and the outcome of [subject.match(regex)], which is [null] or the
    offset [index] of the match and the matched text [matched[0]]. *)
Record RegExp : Type := mkRegExp {
  re_text : jsstring;
  re_match : jsstring -> option (nat * jsstring)
}.

Definition re_test (re : RegExp) (s : jsstring) : bool :=
  match re_match re s with Some _ => true | None => false end.

(** A match is the piece of its subject at the offset of the match. *)
Definition re_wf (re : RegExp) : Prop :=
  forall t i m,
    re_match re t = Some (i, m) ->
    (i + length m <= length t)%nat /\ m = take (length m) (drop i t).

(** The characters [\s] matches: white space and line terminators. *)
Definition is_space (c : N) : bool :=
  ((9 <=? c) && (c <=? 13) || (c =? 32) || (c =? 160) || (c =? 5760)
   || (8192 <=? c) && (c <=? 8202) || (c =? 8232) || (c =? 8233)
   || (c =? 8239) || (c =? 8287) || (c =? 12288) || (c =? 65279))%N.

(** [/^\s*$/] *)
Definition re_blank : RegExp :=
  mkRegExp (js "/^\s*$/")
           (fun t => if forallb is_space t then Some (0%nat, t) else None).

(** [/^,$/] *)
Definition re_comma : RegExp :=
  mkRegExp (js "/^,$/")
           (fun t => match t with
                     | [c] => if (c =? 44)%N then Some (0%nat, t) else None
                     | _ => None
                     end).

(** An anchored character class repeated once or more, [/^[...]+/]. *)
Fixpoint span (cls : N -> bool) (t : jsstring) : jsstring :=
  match t with
  | [] => []
  | c :: t' => if cls c then c :: span cls t' else []
  end.

Definition re_class_plus (text : jsstring) (cls : N -> bool) : RegExp :=
  mkRegExp text
           (fun t => match span cls t with
                     | [] => None
                     | m => Some (0%nat, m)
                     end).

(** A single literal character searched for anywhere, as in [/;/]. *)
Fixpoint find_char (c : N) (t : jsstring) : option nat :=
  match t with
  | [] => None
  | d :: t' => if (d =? c)%N then Some O else option_map S (find_char c t')
  end.

Definition re_char (text : jsstring) (c : N) : RegExp :=
  mkRegExp text
           (fun t => match find_char c t with
                     | Some i => Some (i, [c])
                     | None => None
                     end).

(** Any one character at the start, or nothing at the end of the input:
    [/^[^]?/], which matches every subject. *)
Definition re_any_opt : RegExp :=
  mkRegExp (js "/^[^]?/") (fun t => Some (O, take 1 t)).

Definition is_letter (c : N) : bool :=
  ((97 <=? c) && (c <=? 122) || (65 <=? c) && (c <=? 90))%N.

Definition is_digit (c : N) : bool := ((48 <=? c) && (c <=? 57))%N.

(** ** The suggestion registry and the console *)

Record World : Type := mkWorld {
  suggestions : gmap (list N) (gset (list N));
  console : list jsstring
}.

Definition empty_world : World := mkWorld ∅ [].

(** What [addSuggestion] is given as [val]: a regular expression or a
    string. *)
Inductive Pattern : Type :=
| PRegExp (regex : RegExp)
| PString (s : jsstring).

(** [suggestions] is a plain object, so under the names every object
    inherits from [Object.prototype] a property is found although nothing has
    been filed: a function, and under [__proto__] the prototype itself. *)
Definition Object_prototype : list jsstring :=
  [js "constructor"; js "__defineGetter__"; js "__defineSetter__";
   js "hasOwnProperty"; js "__lookupGetter__"; js "__lookupSetter__";
   js "isPrototypeOf"; js "propertyIsEnumerable"; js "toString";
   js "valueOf"; js "__proto__"; js "toLocaleString"].

Definition inherited (k : jsstring) : bool :=
  bool_decide (k ∈ Object_prototype).

(** [addSuggestion(key, val)]: a regular expression is turned into its text,
    and the key, used as a property name, into a string.  A set filed under
    the key receives the text.  Without one, a new set is made when
    [suggestions[key]] is [undefined]; under an inherited name what is found
    is truthy, no set is made, and calling its [add] raises a [TypeError]:
    that is [None]. *)
Definition addSuggestion (key : Value) (val : Pattern) (w : World)
  : option World :=
  let val := match val with
             | PRegExp regex => re_text regex
             | PString s => s
             end in
  let k := toString key in
  match suggestions w !! k with
  | Some set =>
      Some (mkWorld (<[k := set ∪ {[val]}]> (suggestions w)) (console w))
  | None =>
      if inherited k then None
      else Some (mkWorld (<[k := ∅ ∪ {[val]}]> (suggestions w)) (console w))
  end.

Definition console_log (line : jsstring) (w : World) : World :=
  mkWorld (suggestions w) (console w ++ [line]).

(** ** Parse states *)

Record ParserState : Type := mkState {
  target : jsstring;
  index : Z;
  result : Value;
  isError : bool;
  error : Value;
  errorChain : list Value;
  lastMatchedToken : Value;
  lastMatchedParserIndex : Z;
  lastMatchedTokenIndex : Z
}.

Definition updateParserState (state : ParserState) (index' : Z) (result' : Value)
  : ParserState :=
  mkState (target state) index' result' (isError state) (error state)
          (errorChain state) (lastMatchedToken state)
          (lastMatchedParserIndex state) (lastMatchedTokenIndex state).

Definition updateParserResult (state : ParserState) (result' : Value)
  : ParserState :=
  mkState (target state) (index state) result' (isError state) (error state)
          (errorChain state) (lastMatchedToken state)
          (lastMatchedParserIndex state) (lastMatchedTokenIndex state).

(** [chain.concat(x)] appends the elements of [x] when [x] is an array, and
    [x] itself otherwise. *)
Definition Array_concat (chain : list Value) (x : Value) : list Value :=
  match x with
  | VArr l => chain ++ l
  | _ => chain ++ [x]
  end.

Definition updateParserError (state : ParserState) (errMsg : Value)
  : ParserState :=
  mkState (target state) (index state) (result state) true errMsg
          (Array_concat (errorChain state) errMsg) (lastMatchedToken state)
          (lastMatchedParserIndex state) (lastMatchedTokenIndex state).

(** [{...state, lastMatchedToken, lastMatchedTokenIndex, lastMatchedParserIndex}] *)
Definition withMatched (state : ParserState) (token : Value) (tokenIndex parserIndex : Z)
  : ParserState :=
  mkState (target state) (index state) (result state) (isError state)
          (error state) (errorChain state) token parserIndex tokenIndex.

(** [{...state, errorChain, lastMatchedToken, lastMatchedTokenIndex}], the
    three fields taken from [from]. *)
Definition withDiagnostics (state from : ParserState) : ParserState :=
  mkState (target state) (index state) (result state) (isError state)
          (error state) (errorChain from) (lastMatchedToken from)
          (lastMatchedParserIndex state) (lastMatchedTokenIndex from).

Definition isSeparation (str : jsstring) (sepRegexs : list RegExp) : bool :=
  existsb (fun sep => re_test sep str) sepRegexs.
Arguments isSeparation : simpl never.

(** ** The Parser class *)

Inductive Res (A : Type) : Type :=
| Done (a : A) (w : World)
| Thrown
| Timeout.
Arguments Done {A} a w.
Arguments Thrown {A}.
Arguments Timeout {A}.

Definition bind {A B : Type} (r : Res A) (k : A -> World -> Res B) : Res B :=
  match r with
  | Done a w => k a w
  | Thrown => Thrown
  | Timeout => Timeout
  end.

Notation "'let*' ( x , w ) := r 'in' k" :=
  (bind r (fun x w => k))
  (at level 10, x name, w name, r at level 100, k at level 200).

Record Parser : Type := new_Parser {
  parseStateTransformFn : nat -> World -> ParserState -> Res ParserState
}.
Coercion parseStateTransformFn : Parser >-> Funclass.

Definition initialState (text : jsstring) : ParserState :=
  mkState text 0 VNull false VNull [] VNull 0 0.

Definition run (p : Parser) (text : jsstring) (fuel : nat) (w : World)
  : Res ParserState :=
  p fuel w (initialState text).

Definition map (p : Parser) (fn : Value -> Value) : Parser :=
  new_Parser (fun fuel w parserState =>
    let* (nextState, w) := p fuel w parserState in
    if isError nextState then Done nextState w
    else Done (updateParserResult nextState (fn (result nextState))) w).

Definition errorMap (p : Parser) (fn : Value -> Z -> Value) : Parser :=
  new_Parser (fun fuel w parserState =>
    let* (nextState, w) := p fuel w parserState in
    if negb (isError nextState) then Done nextState w
    else Done (updateParserError nextState
                 (fn (error nextState) (index nextState))) w).

Definition chain (p : Parser) (fn : ParserState -> Parser) : Parser :=
  new_Parser (fun fuel w parserState =>
    let* (nextState, w) := p fuel w parserState in
    if isError nextState then Done nextState w
    else fn nextState fuel w nextState).

(** ** Primitive matchers *)

(** The bookkeeping every failing matcher does before it makes its error
    state: the attempted pattern is filed under the last matched token when
    the two progress marks agree, and under the previous result otherwise. *)
Definition suggest (parserState : ParserState) (val : Pattern) (w : World)
  : option World :=
  if lastMatchedTokenIndex parserState =? lastMatchedParserIndex parserState
  then addSuggestion (lastMatchedToken parserState) val w
  else addSuggestion (result parserState) val w.

Definition separators : list RegExp := [re_blank; re_comma].

Definition regex_unexpected (regex : RegExp) (regexType : jsstring) (index : Z)
  : Value :=
  VStr (regexType ++ js ": Tried match " ++ re_text regex
        ++ js " got unexpected input at index " ++ number_toString index).

Definition regex_mismatch (regex : RegExp) (regexType : jsstring) (index : Z)
  (slicedTarget : jsstring) : Value :=
  VStr (regexType ++ js ": Couldn't match " ++ re_text regex
        ++ js " at index " ++ number_toString index
        ++ js ", remaining string: " ++ slice slicedTarget 0 20).

Definition regexParserFactory (regex : RegExp) (regexType : jsstring) : Parser :=
  new_Parser (fun fuel w parserState =>
    if isError parserState then Done parserState w
    else
      let slicedTarget := slice_from (target parserState) (index parserState) in
      let matchedRes := re_match regex slicedTarget in
      if (length slicedTarget =? 0)%nat && negb (re_test regex slicedTarget) then
        match suggest parserState (PRegExp regex) w with
        | None => Thrown
        | Some w =>
            Done (updateParserError parserState
                    (regex_unexpected regex regexType (index parserState))) w
        end
      else
        match matchedRes with
        | Some (_, matched) =>
            let stop := index parserState + Z.of_nat (length matched) in
            if isSeparation matched separators
            then Done (updateParserState parserState stop (VStr matched)) w
            else Done (updateParserState
                         (withMatched parserState (VStr matched) stop stop)
                         stop (VStr matched)) w
        | None =>
            match suggest parserState (PRegExp regex) w with
            | None => Thrown
            | Some w =>
                Done (updateParserError parserState
                        (regex_mismatch regex regexType (index parserState)
                           slicedTarget)) w
            end
        end).

Definition letters : Parser :=
  regexParserFactory (re_class_plus (js "/^[a-zA-Z]+/") is_letter) (js "letters").

Definition digits : Parser :=
  regexParserFactory (re_class_plus (js "/^[0-9]+/") is_digit) (js "digits").

Definition str_unexpected (s : jsstring) : Value :=
  VStr (js "Tried to match " ++ s ++ js " but got unexpected input").

Definition str_mismatch (s : jsstring) (target : jsstring) (index : Z) : Value :=
  VStr (js "Tried to match " ++ s ++ js " but got "
        ++ slice target index (index + 10)).

Definition str (s : jsstring) : Parser :=
  new_Parser (fun fuel w parserState =>
    if isError parserState then Done parserState w
    else
      let slicedTarget := slice_from (target parserState) (index parserState) in
      if (length slicedTarget =? 0)%nat then
        match suggest parserState (PString s) w with
        | None => Thrown
        | Some w => Done (updateParserError parserState (str_unexpected s)) w
        end
      else if startsWith slicedTarget s then
        let stop := index parserState + Z.of_nat (length s) in
        if isSeparation s separators
        then Done (updateParserState parserState stop (VStr s)) w
        else Done (updateParserState
                     (withMatched parserState (VStr s) stop stop)
                     stop (VStr s)) w
      else
        match suggest parserState (PString s) w with
        | None => Thrown
        | Some w =>
            Done (updateParserError parserState
                    (str_mismatch s (target parserState) (index parserState)))
                 w
        end).

Definition eat (terminal : RegExp) : Parser :=
  new_Parser (fun fuel w parserState =>
    if isError parserState then Done parserState w
    else
      let slicedTarget := slice_from (target parserState) (index parserState) in
      let matched := re_match terminal slicedTarget in
      let termIndex := match matched with
                       | Some (i, _) => Z.of_nat i
                       | None => -1
                       end in
      let eatenToken := slice slicedTarget 0 termIndex in
      if negb (termIndex =? -1) then
        let stop := index parserState + termIndex in
        Done (updateParserState
                (withMatched parserState (VStr eatenToken) stop stop)
                stop (VStr eatenToken)) w
      else
        let len := Z.of_nat (length (target parserState)) in
        Done (updateParserState
                (withMatched parserState (VStr slicedTarget) len len)
                len (VStr slicedTarget)) w).

(** ** Combinators *)

(** The [for] loop of [sequenceOf]: every parser of the list is run, one
    after the other, on the state the one before it returned. *)
Fixpoint sequenceOf_loop (parsers : list Parser) (fuel : nat) (w : World)
  (nextState : ParserState) (results : list Value)
  : Res (ParserState * list Value) :=
  match parsers with
  | [] => Done (nextState, results) w
  | parser :: rest =>
      let* (nextState, w) := parser fuel w nextState in
      sequenceOf_loop rest fuel w nextState (results ++ [result nextState])
  end.

Definition sequenceOf (parsers : list Parser) : Parser :=
  new_Parser (fun fuel w parserState =>
    if isError parserState then Done parserState w
    else
      let* (out, w) := sequenceOf_loop parsers fuel w parserState [] in
      let nextState := fst out in
      let results := snd out in
      if isError nextState then Done nextState w
      else Done (updateParserResult nextState (VArr results)) w).

Definition choice_error (parserState : ParserState) : Value :=
  VStr (js "choice: unable to match any parser at index "
        ++ number_toString (index parserState)).

Definition choice_log (nextState : ParserState) : jsstring :=
  js "choice matching failed, reason:  " ++ toString (error nextState).

Fixpoint choice_loop (parsers : list Parser) (fuel : nat) (w : World)
  (parserState : ParserState) (lastMatchedToken' : Value)
  (lastMatchedTokenIndex' preStateMatchedTokenState : Z) : Res ParserState :=
  match parsers with
  | [] =>
      Done (updateParserError
              (withMatched parserState lastMatchedToken' lastMatchedTokenIndex'
                 (lastMatchedParserIndex parserState))
              (choice_error parserState)) w
  | parser :: rest =>
      let* (nextState, w) := parser fuel w parserState in
      if negb (isError nextState) then Done nextState w
      else
        let w := console_log (choice_log nextState) w in
        if truthy (lastMatchedToken nextState)
           && (lastMatchedTokenIndex nextState >? preStateMatchedTokenState)
        then choice_loop rest fuel w parserState (lastMatchedToken nextState)
               (lastMatchedTokenIndex nextState) (lastMatchedTokenIndex nextState)
        else choice_loop rest fuel w parserState lastMatchedToken'
               lastMatchedTokenIndex' preStateMatchedTokenState
  end.

Definition choice (parsers : list Parser) : Parser :=
  new_Parser (fun fuel w parserState =>
    if isError parserState then Done parserState w
    else choice_loop parsers fuel w parserState VNull 0 0).

(** The [while (!done)] loop of [many]; [iters] bounds its iterations.  It
    hands back [nextState], [lastSuccessState] and [results] as they are when
    [done] is set. *)
Fixpoint many_loop (parser : Parser) (iters fuel : nat) (w : World)
  (nextState lastSuccessState : ParserState) (results : list Value)
  : Res (ParserState * ParserState * list Value) :=
  match iters with
  | O => Timeout
  | S iters =>
      let* (nextState, w) := parser fuel w nextState in
      if negb (isError nextState)
      then many_loop parser iters fuel w nextState nextState
             (results ++ [result nextState])
      else Done (nextState, lastSuccessState, results) w
  end.

Definition many (parser : Parser) : Parser :=
  new_Parser (fun fuel w parserState =>
    if isError parserState then Done parserState w
    else
      let* (out, w) :=
        many_loop parser fuel fuel w parserState parserState [] in
      let '(nextState, lastSuccessState, results) := out in
      Done (updateParserResult (withDiagnostics lastSuccessState nextState)
              (VArr results)) w).

Definition manyOne_error (parserState : ParserState) : Value :=
  VStr (js "manyOne: Unable to match any input using parser at index "
        ++ number_toString (index parserState)).

(** The [while (!done)] loop of [manyOne]: here [nextState] is the state of
    the last success and [lastState] the state of the last attempt, which
    the loop assigns before it reads it. *)
Fixpoint manyOne_loop (parser : Parser) (iters fuel : nat) (w : World)
  (nextState : ParserState) (results : list Value)
  : Res (ParserState * ParserState * list Value) :=
  match iters with
  | O => Timeout
  | S iters =>
      let* (lastState, w) := parser fuel w nextState in
      if negb (isError lastState)
      then manyOne_loop parser iters fuel w lastState
             (results ++ [result lastState])
      else Done (nextState, lastState, results) w
  end.

Definition manyOne (parser : Parser) : Parser :=
  new_Parser (fun fuel w parserState =>
    if isError parserState then Done parserState w
    else
      let* (out, w) := manyOne_loop parser fuel fuel w parserState [] in
      let '(nextState, lastState, results) := out in
      if (length results =? 0)%nat
      then Done (updateParserError (withDiagnostics parserState lastState)
                   (manyOne_error parserState)) w
      else Done (updateParserResult (withDiagnostics nextState lastState)
                   (VArr results)) w).

(** [results[i]] on the array a [map] callback receives. *)
Definition element (v : Value) (i : nat) : Value :=
  match v with
  | VArr l => match l !! i with Some x => x | None => VUndefined end
  | VStr s => match s !! i with Some c => VStr [c] | None => VUndefined end
  | _ => VUndefined
  end.

Definition between (leftParser rightParser contentParser : Parser) : Parser :=
  map (sequenceOf [leftParser; contentParser; rightParser])
      (fun results => element results 1).

(** The [while (true)] loop shared by [sepBy] and [sepByOne]: it hands back
    [nextState], [thingWeWantState] and [results] as they are at the [break]. *)
Fixpoint sepBy_loop (separatorParser valueParser : Parser) (iters fuel : nat)
  (w : World) (nextState : ParserState) (results : list Value)
  : Res (ParserState * ParserState * list Value) :=
  match iters with
  | O => Timeout
  | S iters =>
      let* (thingWeWantState, w) := valueParser fuel w nextState in
      if isError thingWeWantState
      then Done (nextState, thingWeWantState, results) w
      else
        let results := results ++ [result thingWeWantState] in
        let nextState := thingWeWantState in
        let* (separatorState, w) := separatorParser fuel w nextState in
        if isError separatorState
        then Done (nextState, thingWeWantState, results) w
        else sepBy_loop separatorParser valueParser iters fuel w
               separatorState results
  end.

Definition sepBy (separatorParser valueParser : Parser) : Parser :=
  new_Parser (fun fuel w parserState =>
    if isError parserState then Done parserState w
    else
      let* (out, w) :=
        sepBy_loop separatorParser valueParser fuel fuel w parserState [] in
      let '(nextState, thingWeWantState, results) := out in
      Done (updateParserResult (withDiagnostics nextState thingWeWantState)
              (VArr results)) w).

Definition sepByOne_error (parserState : ParserState) : Value :=
  VStr (js "sepByOne: Unable to capture any results using parser at index "
        ++ number_toString (index parserState)).

Definition sepByOne (separatorParser valueParser : Parser) : Parser :=
  new_Parser (fun fuel w parserState =>
    if isError parserState then Done parserState w
    else
      let* (out, w) :=
        sepBy_loop separatorParser valueParser fuel fuel w parserState [] in
      let '(nextState, thingWeWantState, results) := out in
      if (length results =? 0)%nat
      then Done (updateParserError (withDiagnostics parserState thingWeWantState)
                   (sepByOne_error parserState)) w
      else Done (updateParserResult (withDiagnostics nextState thingWeWantState)
                   (VArr results)) w).

Definition succeed (value : Value) : Parser :=
  new_Parser (fun fuel w parserState =>
    if isError parserState then Done parserState w
    else Done (updateParserResult parserState value) w).

Definition lazy (thunkParser : unit -> Parser) : Parser :=
  new_Parser (fun fuel w parserState =>
    let parser := thunkParser tt in
    parser fuel w parserState).

Definition oneOrZero (parser : Parser) : Parser :=
  choice [parser; succeed VNull].

Section RegExpConstructor.

(** [new RegExp(pattern, flags)] of the host. *)
Variable RegExp_new : jsstring -> jsstring -> RegExp.

Definition caseStr (str : jsstring) : Parser :=
  regexParserFactory (RegExp_new str (js "i")) (js "caseStr").

Definition strictCaseStr (str : jsstring) : Parser :=
  regexParserFactory (RegExp_new (js "^" ++ str ++ js "$") (js "i"))
                     (js "strictCaseStr").

Definition strictStr (str : jsstring) : Parser :=
  regexParserFactory (RegExp_new (js "^" ++ str ++ js "$") [])
                     (js "strictCaseStr").

End RegExpConstructor.

(** The [for] loop of [sequenceSepBy]; [iters] is what is left of its
    [parsers.length - 1] rounds.  It hands back [count] with the state.
    [parsers[count]] outside the array is [undefined], and calling its
    transform function raises. *)
Fixpoint sequenceSepBy_loop (sep : Parser) (parsers : list Parser)
  (iters count : nat) (fuel : nat) (w : World) (nextState : ParserState)
  (results : list Value) : Res (ParserState * list Value * nat) :=
  match iters with
  | O => Done (nextState, results, count) w
  | S iters =>
      match (parsers !! count : option Parser) with
      | None => Thrown
      | Some parser =>
          let* (nextState, w) := parser fuel w nextState in
          let results := results ++ [result nextState] in
          let* (nextState, w) := sep fuel w nextState in
          sequenceSepBy_loop sep parsers iters (S count) fuel w nextState results
      end
  end.

Definition sequenceSepBy (sep : Parser) (parsers : list Parser) : Parser :=
  new_Parser (fun fuel w parserState =>
    if isError parserState then Done parserState w
    else
      let* (out, w) :=
        sequenceSepBy_loop sep parsers (length parsers - 1) 0 fuel w
                           parserState [] in
      let '(nextState, results, count) := out in
      match (parsers !! count : option Parser) with
      | None => Thrown
      | Some parser =>
          let* (nextState, w) := parser fuel w nextState in
          let results := results ++ [result nextState] in
          if isError nextState then Done nextState w
          else Done (updateParserResult nextState (VArr results)) w
      end).

Definition peek : Parser :=
  new_Parser (fun fuel w parserState =>
    Done (updateParserResult parserState
            (charAt (target parserState) (index parserState))) w).

Definition getCurState : Parser :=
  new_Parser (fun fuel w parserState => Done parserState w).

Definition setCurState (state : ParserState) : Parser :=
  new_Parser (fun fuel w parserState => Done state w).

(** A generator, as [contextual] drives it: it has returned its value, or it
    is suspended at a [yield] of a parser and goes on from the state it is
    resumed with. *)
Inductive Gen : Type :=
| GReturn (value : Value)
| GYield (nextParser : Parser) (resume : ParserState -> Gen).

Fixpoint runStep (gen : Gen) : Parser :=
  match gen with
  | GReturn value => succeed value
  | GYield nextParser resume =>
      chain nextParser (fun nextState => runStep (resume nextState))
  end.

Definition contextual (parserGenerator : unit -> Gen) : Parser :=
  chain (succeed VNull) (fun _ => runStep (parserGenerator tt)).

(** * Notions the statements use *)

(** ** Insignificant matches *)

(** Pure white space, or a single comma. *)
Definition insignificant (text : jsstring) : Prop :=
  Forall (fun c => is_space c = true) text \/ text = js ",".

(** The pattern matchers and the literal matchers. *)
Definition is_matcher (p : Parser) : Prop :=
  (exists regex regexType, p = regexParserFactory regex regexType)
  \/ (exists s, p = str s).

(** [matched] is the text that [p] finds in what is left of the input of
    [st], and [i] the offset in it at which the regular-expression engine
    reports the match; a literal is looked for at the start only. *)
Definition matches (p : Parser) (st : ParserState) (i : nat)
  (matched : jsstring) : Prop :=
  (exists regex regexType,
      p = regexParserFactory regex regexType
      /\ re_match regex (slice_from (target st) (index st)) = Some (i, matched))
  \/ (p = str matched
      /\ i = O
      /\ startsWith (slice_from (target st) (index st)) matched = true).

(** The offset of the target at which a match of [matched] found [i]
    characters into what is left of the input of [st] ends. *)
Definition match_end (st : ParserState) (i : nat) (matched : jsstring) : Z :=
  index st + Z.of_nat i + Z.of_nat (length matched).

(** A parser that hands an error state back as it received it. *)
Definition passes_errors (p : Parser) : Prop :=
  forall fuel w e, isError e = true -> p fuel w e = Done e w.

(** ** Alternatives of a choice *)

(** Every parser of the list, run on the same [parserState], returns an
    error state; the world goes from one alternative to the next, each
    failure leaving its line on the console. *)
Inductive all_fail (fuel : nat) (parserState : ParserState)
  : list Parser -> World -> list ParserState -> World -> Prop :=
| all_fail_nil w : all_fail fuel parserState [] w [] w
| all_fail_cons (p : Parser) ps w e w1 errs w2 :
    p fuel w parserState = Done e w1 ->
    isError e = true ->
    all_fail fuel parserState ps (console_log (choice_log e) w1) errs w2 ->
    all_fail fuel parserState (p :: ps) w (e :: errs) w2.

(** A failed alternative counts when it has matched a token, a truthy one,
    and its mark is beyond offset 0. *)
Definition candidate (e : ParserState) : bool :=
  truthy (lastMatchedToken e) && (0 <? lastMatchedTokenIndex e).

(** The mark an exhausted choice reports: [null] and 0 when no alternative
    counts, and otherwise the mark of the first alternative that reaches
    the greatest offset among those that count. *)
Definition furthest (errs : list ParserState) (token : Value) (tokenIndex : Z)
  : Prop :=
  (Forall (fun e => candidate e = false) errs /\ token = VNull /\ tokenIndex = 0)
  \/ (exists before e after,
        errs = before ++ e :: after
        /\ candidate e = true
        /\ token = lastMatchedToken e
        /\ tokenIndex = lastMatchedTokenIndex e
        /\ Forall (fun e' => candidate e' = true ->
                             lastMatchedTokenIndex e' < lastMatchedTokenIndex e)
                  before
        /\ Forall (fun e' => candidate e' = true ->
                             lastMatchedTokenIndex e' <= lastMatchedTokenIndex e)
                  after).

(** The rule in the words of the specification: the alternative that
    progressed furthest, a later one replacing the pick only when its
    [lastMatchedTokenIndex] is strictly greater. *)
Definition spec_pick (errs : list ParserState) : option ParserState :=
  match errs with
  | [] => None
  | e :: rest =>
      Some (fold_left
              (fun best e' =>
                 if lastMatchedTokenIndex e' >? lastMatchedTokenIndex best
                 then e' else best)
              rest e)
  end.

(** The two accumulators of [choice_loop], as a function of the error states
    of the alternatives. *)
Fixpoint pick (errs : list ParserState) (token : Value) (tokenIndex : Z)
  : Value * Z :=
  match errs with
  | [] => (token, tokenIndex)
  | e :: rest =>
      if truthy (lastMatchedToken e) && (lastMatchedTokenIndex e >? tokenIndex)
      then pick rest (lastMatchedToken e) (lastMatchedTokenIndex e)
      else pick rest token tokenIndex
  end.

(** ** Steps of a sequence *)

(** Each parser of the list succeeds, in order, starting where the one
    before it left off: the results collected, the last state and the last
    world. *)
Inductive steps_ok (fuel : nat)
  : list Parser -> World -> ParserState -> list Value -> ParserState -> World
    -> Prop :=
| steps_ok_nil w s : steps_ok fuel [] w s [] s w
| steps_ok_cons (p : Parser) ps w s s1 w1 rs s2 w2 :
    p fuel w s = Done s1 w1 ->
    isError s1 = false ->
    steps_ok fuel ps w1 s1 rs s2 w2 ->
    steps_ok fuel (p :: ps) w s (result s1 :: rs) s2 w2.

(** Each parser of the list is run, in order, on the state the one before it
    returned, whether that is an error state or not: the results collected,
    the last state and the last world. *)
Inductive runs_all (fuel : nat)
  : list Parser -> World -> ParserState -> list Value -> ParserState -> World
    -> Prop :=
| runs_all_nil w s : runs_all fuel [] w s [] s w
| runs_all_cons (p : Parser) ps w s s1 w1 rs s2 w2 :
    p fuel w s = Done s1 w1 ->
    runs_all fuel ps w1 s1 rs s2 w2 ->
    runs_all fuel (p :: ps) w s (result s1 :: rs) s2 w2.

(** ** Repetitions *)

(** From the state [s], [parser] succeeds on the evolving state as many
    times as [rs] has results and then fails: [last] is the state of the
    last success, [s] when there is none, and [e] the state of the failing
    attempt. *)
Inductive reps (parser : Parser) (fuel : nat)
  : World -> ParserState -> list Value -> ParserState -> ParserState -> World
    -> Prop :=
| reps_stop w s e w' :
    parser fuel w s = Done e w' ->
    isError e = true ->
    reps parser fuel w s [] s e w'
| reps_more w s s1 w1 rs last e w' :
    parser fuel w s = Done s1 w1 ->
    isError s1 = false ->
    reps parser fuel w1 s1 rs last e w' ->
    reps parser fuel w s (result s1 :: rs) last e w'.

(** ** Separated lists *)

(** From the state [s], a value is parsed, then the separator is attempted,
    and so on until the value parser or the separator fails: [rs] are the
    values collected in order, [stop] is the state the list ends at and
    [thing] the last state the value parser returned. *)
Inductive alternates (separatorParser valueParser : Parser) (fuel : nat)
  : World -> ParserState -> list Value -> ParserState -> ParserState -> World
    -> Prop :=
| alternates_value_fails w s e w' :
    valueParser fuel w s = Done e w' ->
    isError e = true ->
    alternates separatorParser valueParser fuel w s [] s e w'
| alternates_separator_fails w s v w1 e w2 :
    valueParser fuel w s = Done v w1 ->
    isError v = false ->
    separatorParser fuel w1 v = Done e w2 ->
    isError e = true ->
    alternates separatorParser valueParser fuel w s [result v] v v w2
| alternates_more w s v w1 s2 w2 rs stop thing w3 :
    valueParser fuel w s = Done v w1 ->
    isError v = false ->
    separatorParser fuel w1 v = Done s2 w2 ->
    isError s2 = false ->
    alternates separatorParser valueParser fuel w2 s2 rs stop thing w3 ->
    alternates separatorParser valueParser fuel w s (result v :: rs) stop thing w3.

(** ** Sequences with a separator *)

(** The separator is run between consecutive parsers only: the parsers and
    the separator in turn, by recursion on the list, the results of the
    parsers collected.  The last parser is not followed by the separator.
    There is nothing to run in an empty list. *)
Fixpoint interleaved (sep : Parser) (parsers : list Parser) (fuel : nat)
  (w : World) (nextState : ParserState) (results : list Value)
  : Res (ParserState * list Value) :=
  match parsers with
  | [] => Thrown
  | parser :: rest =>
      let* (nextState, w) := parser fuel w nextState in
      let results := results ++ [result nextState] in
      match rest with
      | [] => Done (nextState, results) w
      | _ :: _ =>
          let* (nextState, w) := sep fuel w nextState in
          interleaved sep rest fuel w nextState results
      end
  end.

(** What [sequenceSepBy] makes of the last state and the results. *)
Definition sequence_outcome (r : Res (ParserState * list Value))
  : Res ParserState :=
  let* (out, w) := r in
  if isError out.1 then Done out.1 w
  else Done (updateParserResult out.1 (VArr out.2)) w.

(** A larger bound does not change what a parser returns. *)
Definition steady (p : Parser) : Prop :=
  forall (fuel fuel' : nat) w s r w',
    p fuel w s = Done r w' -> (fuel <= fuel')%nat -> p fuel' w s = Done r w'.

(** A parser that returns a state from every state, given a large enough
    bound. *)
Definition halts (p : Parser) : Prop :=
  forall w s, exists (fuel : nat) r w', p fuel w s = Done r w'.

(** ** Offsets *)

(** The index is an offset into the target. *)
Definition in_bounds (s : ParserState) : Prop :=
  0 <= index s <= Z.of_nat (length (target s)).

(** From [s] to [r] the target is the same and the index has not moved back,
    nor past the end. *)
Definition advances (s r : ParserState) : Prop :=
  target r = target s
  /\ index s <= index r <= Z.of_nat (length (target s)).

Definition index_safe (p : Parser) : Prop :=
  forall (fuel : nat) w s r w',
    p fuel w s = Done r w' -> in_bounds s -> advances s r.

(** A parser that, when it fails on a non-error state, leaves the index where
    it was. *)
Definition fails_in_place (p : Parser) : Prop :=
  forall (fuel : nat) w s r w',
    isError s = false ->
    p fuel w s = Done r w' ->
    isError r = true ->
    index r = index s.

(** The parsers built with the public primitives and combinators, the one
    that installs a state of the caller's, [setCurState], left out.  The
    regular expressions are those of a host whose matches lie within their
    subject. *)
Inductive Public : Parser -> Prop :=
| Public_regexParserFactory regex regexType :
    re_wf regex -> Public (regexParserFactory regex regexType)
| Public_str s : Public (str s)
| Public_eat terminal : re_wf terminal -> Public (eat terminal)
| Public_sequenceOf parsers : PublicAll parsers -> Public (sequenceOf parsers)
| Public_choice parsers : PublicAll parsers -> Public (choice parsers)
| Public_many parser : Public parser -> Public (many parser)
| Public_manyOne parser : Public parser -> Public (manyOne parser)
| Public_sepBy sep value :
    Public sep -> Public value -> Public (sepBy sep value)
| Public_sepByOne sep value :
    Public sep -> Public value -> Public (sepByOne sep value)
| Public_succeed value : Public (succeed value)
| Public_lazy thunkParser : Public (thunkParser tt) -> Public (lazy thunkParser)
| Public_sequenceSepBy sep parsers :
    Public sep -> PublicAll parsers -> Public (sequenceSepBy sep parsers)
| Public_peek : Public peek
| Public_getCurState : Public getCurState
| Public_map parser fn : Public parser -> Public (map parser fn)
| Public_errorMap parser fn : Public parser -> Public (errorMap parser fn)
| Public_chain parser fn :
    Public parser -> (forall st, Public (fn st)) -> Public (chain parser fn)
with PublicAll : list Parser -> Prop :=
| PublicAll_nil : PublicAll []
| PublicAll_cons parser parsers :
    Public parser -> PublicAll parsers -> PublicAll (parser :: parsers).

Scheme Public_min := Minimality for Public Sort Prop
  with PublicAll_min := Minimality for PublicAll Sort Prop.

(** A generator all of whose yielded parsers are public. *)
Inductive PublicGen : Gen -> Prop :=
| PublicGen_return value : PublicGen (GReturn value)
| PublicGen_yield nextParser resume :
    Public nextParser ->
    (forall st, PublicGen (resume st)) ->
    PublicGen (GYield nextParser resume).

(** * Notions for the rest of the engine *)

(** ** The registry *)

(** The text [addSuggestion] stores for [val]. *)
Definition pattern_text (val : Pattern) : jsstring :=
  match val with
  | PRegExp regex => re_text regex
  | PString s => s
  end.

(** [val] is among the suggestions filed under [key]. *)
Definition suggested (w : World) (key val : jsstring) : Prop :=
  exists set, suggestions w !! key = Some set /\ val ∈ set.

(** The key a failing matcher files its pattern under. *)
Definition suggest_key (st : ParserState) : jsstring :=
  toString (if lastMatchedTokenIndex st =? lastMatchedParserIndex st
            then lastMatchedToken st else result st).

(** The registry with [val] added to the set under [key], a new set when
    there was none. *)
Definition store (key val : jsstring) (w : World) : World :=
  mkWorld (<[key := default ∅ (suggestions w !! key) ∪ {[val]}]> (suggestions w))
          (console w).

(** The world once the pattern of a failing matcher has been filed under the
    key of [st]. *)
Definition filed (st : ParserState) (val : Pattern) (w : World) : World :=
  store (suggest_key st) (pattern_text val) w.

(** Filing under the key of [st] raises: nothing is filed under it yet and it
    names an inherited property. *)
Definition key_raises (st : ParserState) (w : World) : Prop :=
  suggestions w !! suggest_key st = None /\ inherited (suggest_key st) = true.

(** From [w] to [w'] no suggestion was dropped and the console was only
    appended to. *)
Definition world_le (w w' : World) : Prop :=
  (forall key val, suggested w key val -> suggested w' key val)
  /\ console w `prefix_of` console w'.

(** A parser that keeps the history: the world only grows and the
    [errorChain] of the state only gets longer. *)
Definition keeps_history (p : Parser) : Prop :=
  forall (fuel : nat) w s r w',
    p fuel w s = Done r w' ->
    world_le w w' /\ errorChain s `prefix_of` errorChain r.

(** ** Progress *)

(** A parser that moves the index forward whenever it succeeds on a
    non-error state. *)
Definition consumes (p : Parser) : Prop :=
  forall (fuel : nat) w s r w',
    isError s = false ->
    p fuel w s = Done r w' ->
    isError r = false ->
    index s < index r.

(** A parser that returns a state from every state at the bound [fuel]. *)
Definition returns_at (p : Parser) (fuel : nat) : Prop :=
  forall w s, exists r w', p fuel w s = Done r w'.

(** * Properties *)

(** ** The engine on small inputs *)

Example letters_abc123 :
  run letters (js "abc123") O empty_world
  = Done (mkState (js "abc123") 3 (VStr (js "abc")) false VNull []
            (VStr (js "abc")) 3 3) empty_world.
Proof. reflexivity. Qed.

Example digits_abc :
  exists r w,
    run digits (js "abc") O empty_world = Done r w
    /\ isError r = true /\ index r = 0.
Proof. eexists _, _. split; [vm_compute; reflexivity |]. split; reflexivity. Qed.

Example between_parentheses :
  run (between (str (js "(")) (str (js ")")) digits) (js "(123)") O empty_world
  = Done (mkState (js "(123)") 5 (VStr (js "123")) false VNull []
            (VStr (js ")")) 5 5) empty_world.
Proof. reflexivity. Qed.

(** ** Strings *)

Lemma slice_from_past_end (t : jsstring) i :
  Z.of_nat (length t) <= i -> slice_from t i = [].
Proof.
  intros H. unfold slice_from, clamp.
  destruct (Z.ltb_spec i 0); [lia |].
  rewrite Z.min_r by lia. rewrite Nat2Z.id. apply drop_all.
Qed.

Lemma slice_from_in_bounds (t : jsstring) i :
  0 <= i <= Z.of_nat (length t) -> slice_from t i = drop (Z.to_nat i) t.
Proof.
  intros H. unfold slice_from, clamp.
  destruct (Z.ltb_spec i 0); [lia |]. by rewrite Z.min_l by lia.
Qed.

Lemma length_slice_from (t : jsstring) i :
  0 <= i <= Z.of_nat (length t) ->
  Z.of_nat (length (slice_from t i)) = Z.of_nat (length t) - i.
Proof.
  intros H. rewrite slice_from_in_bounds by assumption.
  rewrite length_drop. lia.
Qed.

Lemma startsWith_length (s : jsstring) :
  forall t, startsWith t s = true -> (length s <= length t)%nat.
Proof.
  induction s as [|c s IH]; intros [|d t]; cbn; try lia; try discriminate.
  intros H. apply andb_true_iff in H as [_ H]. apply IH in H. lia.
Qed.

Lemma startsWith_take (s : jsstring) :
  forall t, startsWith t s = true -> take (length s) t = s.
Proof.
  induction s as [|c s IH]; intros [|d t]; cbn; try reflexivity; try discriminate.
  intros H. apply andb_true_iff in H as [Hc H].
  apply N.eqb_eq in Hc as ->. by rewrite (IH t H).
Qed.

Lemma slice_between (t : jsstring) i (n : nat) :
  0 <= i -> i + Z.of_nat n <= Z.of_nat (length t) ->
  slice t i (i + Z.of_nat n) = take n (slice_from t i).
Proof.
  intros Hi Hn. rewrite slice_from_in_bounds by lia.
  unfold slice, clamp.
  destruct (Z.ltb_spec i 0); [lia |].
  destruct (Z.ltb_spec (i + Z.of_nat n) 0); [lia |].
  rewrite !Z.min_l by lia.
  replace (Z.to_nat (i + Z.of_nat n - i)) with n by lia. reflexivity.
Qed.

(** ** The separator test *)

Lemma forallb_is_space text :
  forallb is_space text = true <-> Forall (fun c => is_space c = true) text.
Proof.
  induction text as [|c text IH]; cbn.
  - split; auto.
  - rewrite andb_true_iff, IH. split.
    + intros [Hc Ht]. by constructor.
    + intros H. inversion H; subst. auto.
Qed.

Lemma re_comma_test text : re_test re_comma text = true <-> text = js ",".
Proof.
  unfold re_test, re_comma; cbn.
  destruct text as [|c [|d text]]; cbn; [split; discriminate | | split; discriminate].
  destruct (N.eqb_spec c 44) as [->|Hne].
  - split; reflexivity.
  - split; [discriminate | intros [= ->]; contradiction].
Qed.

Lemma isSeparation_spec text :
  isSeparation text separators = true <-> insignificant text.
Proof.
  unfold isSeparation, separators, insignificant; cbn.
  rewrite orb_false_r, orb_true_iff, re_comma_test.
  unfold re_test, re_blank; cbn.
  rewrite <- forallb_is_space.
  destruct (forallb is_space text); intuition (auto; discriminate).
Qed.

Lemma isSeparation_false text :
  isSeparation text separators = false <-> ~ insignificant text.
Proof.
  rewrite <- isSeparation_spec.
  destruct (isSeparation text separators); split; done.
Qed.

Ltac separation Hsep :=
  first [apply isSeparation_spec in Hsep | apply isSeparation_false in Hsep].

(** What filing a pattern does: it raises, or the pattern is filed. *)
Lemma suggest_spec st val w :
  match suggest st val w with
  | Some w' => w' = filed st val w /\ ~ key_raises st w
  | None => key_raises st w
  end.
Proof.
  unfold suggest, filed, store, key_raises, suggest_key, addSuggestion.
  destruct (_ =? _); cbn;
    (destruct (suggestions w !! _) as [set|] eqn:Hset; cbn;
     [split; [by destruct val | intros [H _]; discriminate]
     | destruct (inherited _) eqn:Hin;
       [by split
       | split; [by destruct val | intros [_ H]; discriminate]]]).
Qed.

Lemma suggest_filed st val w :
  ~ key_raises st w -> suggest st val w = Some (filed st val w).
Proof.
  intros Hkey. pose proof (suggest_spec st val w) as H.
  destruct (suggest st val w) as [w'|]; [by destruct H as [-> _] | contradiction].
Qed.

Lemma suggest_raises st val w : key_raises st w -> suggest st val w = None.
Proof.
  intros Hkey. pose proof (suggest_spec st val w) as H.
  destruct (suggest st val w) as [w'|]; [by destruct H as [_ H] | reflexivity].
Qed.

(** What is left to do in a failing branch of a matcher: the pattern is
    filed and an error state made, or the filing raises. *)
Ltac filing :=
  match goal with
  | |- context [suggest ?st ?val ?w] =>
      let Hf := fresh "Hfiled" in
      let Hk := fresh "Hkey" in
      let w1 := fresh "w1" in
      pose proof (suggest_spec st val w) as Hf;
      destruct (suggest st val w) as [w1|]; [destruct Hf as [-> Hk] |]
  end.

(** In a branch that returns a state the pattern was filed. *)
Ltac was_filed := filing; [| discriminate].

(** C7.  A pattern matcher or a literal matcher that succeeds on a non-error
    state returns the matched text as the result and moves the index by its
    length.  When the text is insignificant (white space only, or a single
    comma) the three marks [lastMatchedToken], [lastMatchedTokenIndex] and
    [lastMatchedParserIndex] are those of the input state; otherwise the
    token is the matched text and both offsets are the old index plus the
    length of the match.  That is the offset the match ended at when the
    match starts at the current offset, as it does for a literal; the offset
    the engine reports is not read.  The pattern [caseStr] builds is not
    anchored: on [ab;] the pattern of [caseStr ";"] matches at offset 2, the
    match ends at offset 3, and the marks and the index are set to 1. *)
Theorem matcher_high_water_mark :
  (forall (p : Parser) (fuel : nat) w st r w',
      is_matcher p ->
      isError st = false ->
      p fuel w st = Done r w' ->
      isError r = false ->
      exists i matched,
        matches p st i matched
        /\ result r = VStr matched
        /\ index r = index st + Z.of_nat (length matched)
        /\ target r = target st
        /\ (insignificant matched ->
            lastMatchedToken r = lastMatchedToken st
            /\ lastMatchedTokenIndex r = lastMatchedTokenIndex st
            /\ lastMatchedParserIndex r = lastMatchedParserIndex st)
        /\ (~ insignificant matched ->
            lastMatchedToken r = VStr matched
            /\ lastMatchedTokenIndex r = index r
            /\ lastMatchedParserIndex r = index r)
        /\ index r = match_end st i matched - Z.of_nat i)
  /\ (forall s (fuel : nat) w st r w',
         isError st = false ->
         str s fuel w st = Done r w' ->
         isError r = false ->
         matches (str s) st O s /\ index r = match_end st O s)
  /\ (forall regex st i matched,
         re_match regex (slice_from (target st) (index st)) = Some (i, matched) ->
         re_wf regex ->
         in_bounds st ->
         slice (target st) (match_end st i matched - Z.of_nat (length matched))
               (match_end st i matched)
         = matched)
  /\ (let host := fun pattern flags : jsstring =>
                    re_char (js "/" ++ pattern ++ js "/" ++ flags) 59 in
      let st := initialState (js "ab;") in
      let r := mkState (js "ab;") 1 (VStr (js ";")) false VNull []
                 (VStr (js ";")) 1 1 in
      caseStr host (js ";") O empty_world st = Done r empty_world
      /\ matches (caseStr host (js ";")) st 2 (js ";")
      /\ ~ insignificant (js ";")
      /\ match_end st 2 (js ";") = 3
      /\ lastMatchedTokenIndex r = 1
      /\ lastMatchedParserIndex r = 1).
Proof.
  split; [| split; [| split]].
  - intros p fuel w st r w' [(regex & regexType & ->) | (s & ->)] Hok;
      cbn; rewrite Hok.
    + destruct (_ && _); [filing; [intros [= <- <-] | ]; discriminate |].
      destruct (re_match regex _) as [[i matched]|] eqn:Hm;
        [| filing; [intros [= <- <-] | ]; discriminate].
      assert (matches (regexParserFactory regex regexType) st i matched)
        by (left; eauto 6).
      destruct (isSeparation matched separators) eqn:Hsep;
        intros [= <- <-] _; exists i, matched; unfold match_end; cbn;
        repeat split; auto; try lia;
        separation Hsep; contradiction.
    + destruct (_ =? _)%nat; [filing; [intros [= <- <-] | ]; discriminate |].
      destruct (startsWith _ s) eqn:Hm;
        [| filing; [intros [= <- <-] | ]; discriminate].
      assert (matches (str s) st O s) by (right; auto).
      destruct (isSeparation s separators) eqn:Hsep;
        intros [= <- <-] _; exists O, s; unfold match_end; cbn;
        repeat split; auto; try lia;
        separation Hsep; contradiction.
  - intros s fuel w st r w' Hok. cbn. rewrite Hok.
    destruct (_ =? _)%nat; [filing; [intros [= <- <-] | ]; discriminate |].
    destruct (startsWith _ s) eqn:Hm;
      [| filing; [intros [= <- <-] | ]; discriminate].
    assert (matches (str s) st O s) by (right; auto).
    destruct (isSeparation s separators);
      intros [= <- <-] _; unfold match_end; cbn; (split; [assumption | lia]).
  - intros regex st i matched Hm Hwf Hb.
    pose proof (length_slice_from (target st) (index st) Hb) as Hlen.
    destruct (Hwf _ _ _ Hm) as [Hle Hpiece].
    unfold in_bounds in Hb. unfold match_end.
    replace (index st + Z.of_nat i + Z.of_nat (length matched)
             - Z.of_nat (length matched)) with (index st + Z.of_nat i) by lia.
    rewrite slice_between by lia.
    rewrite Hpiece at 2.
    rewrite !slice_from_in_bounds by lia.
    rewrite drop_drop.
    replace (Z.to_nat (index st + Z.of_nat i))
      with (Z.to_nat (index st) + i)%nat by lia.
    reflexivity.
  - cbn zeta. split; [reflexivity |].
    split; [left; eexists _, _; split; reflexivity |].
    split; [apply isSeparation_false; reflexivity |].
    repeat split.
Qed.

Lemma matcher_high_water_mark_witness :
  exists i matched,
    matches letters (initialState (js "abc123")) i matched
    /\ result (mkState (js "abc123") 3 (VStr (js "abc")) false VNull []
                 (VStr (js "abc")) 3 3) = VStr matched.
Proof.
  destruct matcher_high_water_mark as [H _].
  destruct (H letters O empty_world
              (initialState (js "abc123"))
              (mkState (js "abc123") 3 (VStr (js "abc")) false VNull []
                 (VStr (js "abc")) 3 3) empty_world)
    as (i & matched & Hm & Hr & _).
  - left. eexists _, _. reflexivity.
  - reflexivity.
  - vm_compute. reflexivity.
  - reflexivity.
  - exists i, matched. split; assumption.
Defined.

(** ** The literal matcher at the end of the input *)

(** C9.  On a non-error state whose remaining input is empty, which is the
    case when the index is at or past the end of the target, [str s] files
    [s] under the diagnostic key of the state and returns an error state, for
    every [s], the empty string included, unless the filing raises: when no
    set is filed under the key and the key names a property inherited from
    [Object.prototype], no state is returned.  That happens after [letters]
    has matched the whole input [constructor].  When the remaining input is
    not empty, [str ""] succeeds: the index does not move, the result is the
    empty string and, the match being insignificant, the marks are
    untouched. *)
Theorem str_at_end_of_input :
  (forall (s : jsstring) (fuel : nat) w st,
      isError st = false ->
      (Z.of_nat (length (target st)) <= index st ->
       slice_from (target st) (index st) = [])
      /\ match slice_from (target st) (index st) with
         | [] =>
             (key_raises st w -> str s fuel w st = Thrown)
             /\ (~ key_raises st w ->
                 str s fuel w st
                 = Done (updateParserError st (str_unexpected s))
                        (filed st (PString s) w))
             /\ isError (updateParserError st (str_unexpected s)) = true
         | _ :: _ =>
             str [] fuel w st = Done (updateParserState st (index st) (VStr [])) w
             /\ insignificant []
         end)
  /\ (let st := mkState (js "constructor") 11 (VStr (js "constructor")) false
                  VNull [] (VStr (js "constructor")) 11 11 in
      run letters (js "constructor") O empty_world = Done st empty_world
      /\ slice_from (target st) (index st) = []
      /\ key_raises st empty_world
      /\ str (js "x") O empty_world st = Thrown
      /\ run (sequenceOf [letters; str (js "x")]) (js "constructor") O
             empty_world
         = Thrown).
Proof.
  split.
  - intros s fuel w st Hok. split; [apply slice_from_past_end |].
    cbn. rewrite Hok.
    destruct (slice_from (target st) (index st)) as [|c rest]; cbn.
    + split; [| split; [| reflexivity]]; intros Hkey.
      * by rewrite suggest_raises.
      * by rewrite suggest_filed.
    + rewrite Z.add_0_r. split; [reflexivity | left; constructor].
  - cbn zeta. split; [reflexivity |]. split; [reflexivity |].
    split; [split; reflexivity |]. split; reflexivity.
Qed.

Lemma str_at_end_of_input_witness :
  str [] O empty_world (initialState [])
  = Done (updateParserError (initialState []) (str_unexpected []))
         (filed (initialState []) (PString []) empty_world).
Proof.
  destruct str_at_end_of_input as [H _].
  destruct (H [] O empty_world (initialState []) eq_refl) as [_ H'].
  apply (proj1 (proj2 H')).
  intros [_ Hin]. vm_compute in Hin. discriminate Hin.
Defined.

(** ** Error states handed to [peek] *)

(** C4.  [peek] does not test [isError]: given the error state that
    [str "b"] returns on the input [a], it writes the character at the
    current offset into [result], where [succeed] returns the state as it
    is.  Run after [str "b"] in a sequence, it changes the error state the
    sequence returns. *)
Theorem peek_rewrites_error_state :
  exists e w,
    run (str (js "b")) (js "a") 0 empty_world = Done e w
    /\ isError e = true
    /\ result e = VNull
    /\ peek O w e = Done (updateParserResult e (VStr (js "a"))) w
    /\ updateParserResult e (VStr (js "a")) <> e
    /\ succeed (VStr (js "a")) O w e = Done e w
    /\ run (sequenceOf [str (js "b"); peek]) (js "a") 0 empty_world
       = Done (updateParserResult e (VStr (js "a"))) w.
Proof.
  eexists _, _. split; [reflexivity |].
  repeat split; try reflexivity.
  intros H. apply (f_equal result) in H. discriminate H.
Qed.

(** ** Error states handed to the other parsers *)

(** X21.  Every primitive and combinator that tests [isError] first hands an
    error state back as it is, whatever its arguments, and so do the combinators
    defined from them, [between], [oneOrZero] and [contextual];
    [getCurState] always does; [map], [chain] and [lazy] do when the parser
    they run does. *)
Lemma guarded_parsers_pass_errors :
  (forall regex regexType, passes_errors (regexParserFactory regex regexType))
  /\ (forall s, passes_errors (str s))
  /\ (forall terminal, passes_errors (eat terminal))
  /\ (forall parsers, passes_errors (sequenceOf parsers))
  /\ (forall parsers, passes_errors (choice parsers))
  /\ (forall parser, passes_errors (many parser))
  /\ (forall parser, passes_errors (manyOne parser))
  /\ (forall sep value, passes_errors (sepBy sep value))
  /\ (forall sep value, passes_errors (sepByOne sep value))
  /\ (forall value, passes_errors (succeed value))
  /\ (forall sep parsers, passes_errors (sequenceSepBy sep parsers))
  /\ (forall l r c, passes_errors (between l r c))
  /\ (forall parser, passes_errors (oneOrZero parser))
  /\ (forall parserGenerator, passes_errors (contextual parserGenerator))
  /\ passes_errors getCurState
  /\ (forall parser fn, passes_errors parser -> passes_errors (map parser fn))
  /\ (forall parser fn, passes_errors parser -> passes_errors (chain parser fn))
  /\ (forall thunkParser,
         passes_errors (thunkParser tt) -> passes_errors (lazy thunkParser)).
Proof.
  repeat split; intros;
    try (intros fuel w e He; cbn; rewrite ?He; cbn; rewrite ?He; reflexivity).
  - intros fuel w e He. cbn. rewrite (H fuel w e He). cbn. by rewrite He.
  - intros fuel w e He. cbn. rewrite (H fuel w e He). cbn. by rewrite He.
  - intros fuel w e He. cbn. by apply H.
Qed.

(** X22.  On a non-error state [peek] does not fail and does not move: the result
    is the character at the current offset, [undefined] at the end of the
    input. *)
Lemma peek_on_success (fuel : nat) w st :
  isError st = false ->
  exists r,
    peek fuel w st = Done r w
    /\ isError r = false
    /\ index r = index st
    /\ result r = charAt (target st) (index st)
    /\ (Z.of_nat (length (target st)) <= index st -> result r = VUndefined).
Proof.
  intros Hok. eexists. split; [reflexivity |].
  cbn [isError index result updateParserResult]. repeat split; auto.
  intros Hend. unfold charAt.
  destruct (Z.ltb_spec (index st) 0); [reflexivity |].
  rewrite (lookup_ge_None_2 (target st)) by lia. reflexivity.
Qed.

(** ** Ordered choice *)

Lemma choice_loop_first_success fuel x before :
  forall (p : Parser) after w errs w1 r w2 token tokenIndex pre,
    all_fail fuel x before w errs w1 ->
    p fuel w1 x = Done r w2 ->
    isError r = false ->
    choice_loop (before ++ p :: after) fuel w x token tokenIndex pre = Done r w2.
Proof.
  induction before as [|q before IH]; intros p after w errs w1 r w2 tok idx pre Hf Hp Hr.
  - inversion Hf; subst. cbn. rewrite Hp. cbn. by rewrite Hr.
  - inversion Hf as [|? ? ? e w' errs' ? Hq He Hrest]; subst. cbn.
    rewrite Hq. cbn. rewrite He. cbn.
    destruct (_ && _); eapply IH; eauto.
Qed.

Lemma choice_loop_all_fail fuel x parsers :
  forall w errs w1 token tokenIndex,
    all_fail fuel x parsers w errs w1 ->
    choice_loop parsers fuel w x token tokenIndex tokenIndex
    = Done (updateParserError
              (withMatched x (pick errs token tokenIndex).1
                 (pick errs token tokenIndex).2 (lastMatchedParserIndex x))
              (choice_error x)) w1.
Proof.
  induction parsers as [|q parsers IH]; intros w errs w1 tok idx Hf.
  - inversion Hf; subst. reflexivity.
  - inversion Hf as [|? ? ? e w' errs' ? Hq He Hrest]; subst. cbn.
    rewrite Hq. cbn. rewrite He. cbn.
    destruct (_ && _); by apply IH.
Qed.

Lemma furthest_snoc seen e token tokenIndex :
  furthest seen token tokenIndex ->
  furthest (seen ++ [e])
    (if truthy (lastMatchedToken e) && (lastMatchedTokenIndex e >? tokenIndex)
     then lastMatchedToken e else token)
    (if truthy (lastMatchedToken e) && (lastMatchedTokenIndex e >? tokenIndex)
     then lastMatchedTokenIndex e else tokenIndex).
Proof.
  intros [(Hnone & -> & ->) | (b & e0 & a & -> & Hc & -> & -> & Hb & Ha)].
  - destruct (truthy (lastMatchedToken e)) eqn:Ht; cbn.
    + destruct (Z.gtb_spec (lastMatchedTokenIndex e) 0) as [Hgt|Hle].
      * right. exists seen, e, []. repeat split; auto.
        -- unfold candidate. rewrite Ht. cbn. by apply Z.ltb_lt.
        -- eapply Forall_impl; [exact Hnone |]. cbn. intros e' -> ?. discriminate.
      * left. repeat split; auto. apply Forall_app. split; [assumption |].
        constructor; [| constructor]. unfold candidate. rewrite Ht. cbn.
        apply Z.ltb_ge. lia.
    + left. repeat split; auto. apply Forall_app. split; [assumption |].
      constructor; [| constructor]. unfold candidate. by rewrite Ht.
  - assert (H0 : 0 < lastMatchedTokenIndex e0).
    { unfold candidate in Hc. apply andb_true_iff in Hc as [_ Hc].
      by apply Z.ltb_lt. }
    destruct (truthy (lastMatchedToken e)) eqn:Ht; cbn.
    + destruct (Z.gtb_spec (lastMatchedTokenIndex e) (lastMatchedTokenIndex e0))
        as [Hgt|Hle].
      * right. exists (b ++ e0 :: a), e, []. repeat split; auto.
        -- unfold candidate. rewrite Ht. cbn. apply Z.ltb_lt. lia.
        -- apply Forall_app. split; [| constructor].
           ++ eapply Forall_impl; [exact Hb |]. cbn. intros e' H ?. specialize (H H1). lia.
           ++ intros _. lia.
           ++ eapply Forall_impl; [exact Ha |]. cbn. intros e' H ?. specialize (H H1). lia.
      * right. exists b, e0, (a ++ [e]). rewrite <- app_assoc. repeat split; auto.
        apply Forall_app. split; [assumption |]. constructor; [| constructor].
        intros _. lia.
    + right. exists b, e0, (a ++ [e]). rewrite <- app_assoc. repeat split; auto.
      apply Forall_app. split; [assumption |]. constructor; [| constructor].
      unfold candidate. rewrite Ht. discriminate.
Qed.

Lemma pick_furthest errs :
  forall seen token tokenIndex,
    furthest seen token tokenIndex ->
    furthest (seen ++ errs) (pick errs token tokenIndex).1
             (pick errs token tokenIndex).2.
Proof.
  induction errs as [|e errs IH]; intros seen tok idx H; cbn.
  - by rewrite app_nil_r.
  - apply (furthest_snoc _ e) in H.
    replace (seen ++ e :: errs) with ((seen ++ [e]) ++ errs)
      by (by rewrite <- app_assoc).
    destruct (_ && _); by apply IH.
Qed.

(** C1, as the code has it.  [choice] runs the parsers in order, each on the
    starting state [x], and returns the state of the first one that does not
    fail.  When all of them fail it returns [x] turned into an error state
    whose message names the index of [x], and whose [lastMatchedToken] and
    [lastMatchedTokenIndex] are [furthest] among the failed alternatives:
    those of the first alternative with the greatest [lastMatchedTokenIndex]
    among the alternatives whose token is truthy and whose mark is positive,
    and [null] and 0 when there is no such alternative. *)
Theorem choice_first_success_or_furthest parsers (fuel : nat) w x :
  isError x = false ->
  (forall before (p : Parser) after errs w1 r w2,
      parsers = before ++ p :: after ->
      all_fail fuel x before w errs w1 ->
      p fuel w1 x = Done r w2 ->
      isError r = false ->
      choice parsers fuel w x = Done r w2)
  /\ (forall errs w1,
         all_fail fuel x parsers w errs w1 ->
         exists token tokenIndex,
           furthest errs token tokenIndex
           /\ choice parsers fuel w x
              = Done (updateParserError
                        (withMatched x token tokenIndex (lastMatchedParserIndex x))
                        (choice_error x)) w1).
Proof.
  intros Hok. split.
  - intros before p after errs w1 r w2 -> Hf Hp Hr. cbn. rewrite Hok.
    eapply choice_loop_first_success; eauto.
  - intros errs w1 Hf. eexists _, _. split.
    + apply (pick_furthest errs [] VNull 0). left. repeat split. constructor.
    + cbn. rewrite Hok. by apply choice_loop_all_fail.
Qed.

Lemma choice_first_success_or_furthest_witness :
  choice [str (js "a"); str (js "b")] O empty_world (initialState (js "b"))
  = Done (mkState (js "b") 1 (VStr (js "b")) false VNull [] (VStr (js "b")) 1 1)
         (console_log
            (choice_log (updateParserError (initialState (js "b"))
                           (str_mismatch (js "a") (js "b") 0)))
            (filed (initialState (js "b")) (PString (js "a")) empty_world)).
Proof.
  destruct (choice_first_success_or_furthest
              [str (js "a"); str (js "b")] O empty_world
              (initialState (js "b")) eq_refl) as [H _].
  eapply (H [str (js "a")] (str (js "b")) []).
  - reflexivity.
  - econstructor; [| | constructor]; reflexivity.
  - reflexivity.
  - reflexivity.
Defined.

(** The rule as the specification words it does not hold.  On the input
    [k=;] the first alternative fails after matching [k=] and eating an empty
    token at offset 2, the second fails after matching [k] only.  The first
    one progressed furthest, yet its token is the empty string, which the
    loop skips: the mark returned is that of the second. *)
Lemma choice_furthest_counterexample :
  let A := sequenceOf [str (js "k="); eat (re_char (js "/;/") 59); str (js "!")] in
  let B := sequenceOf [str (js "k"); str (js ":")] in
  let x := initialState (js "k=;") in
  exists e1 w1 e2 w2 r w3,
    A O empty_world x = Done e1 w1 /\ isError e1 = true
    /\ B O (console_log (choice_log e1) w1) x = Done e2 w2 /\ isError e2 = true
    /\ choice [A; B] O empty_world x = Done r w3
    /\ spec_pick [e1; e2] = Some e1
    /\ lastMatchedTokenIndex e1 = 2
    /\ lastMatchedTokenIndex r = 1
    /\ lastMatchedToken r <> lastMatchedToken e1.
Proof.
  cbv zeta. eexists _, _, _, _, _, _.
  split; [vm_compute; reflexivity |].
  split; [reflexivity |].
  split; [vm_compute; reflexivity |].
  split; [reflexivity |].
  split; [vm_compute; reflexivity |].
  split; [reflexivity |].
  split; [reflexivity |].
  split; [reflexivity |].
  discriminate.
Qed.

(** ** Sequences *)

Lemma steps_ok_isError fuel ps w s rs s' w' :
  steps_ok fuel ps w s rs s' w' -> isError s = false -> isError s' = false.
Proof. induction 1; auto. Qed.

Lemma sequenceOf_loop_ok fuel ps w s rs s' w' :
  steps_ok fuel ps w s rs s' w' ->
  forall acc, sequenceOf_loop ps fuel w s acc = Done (s', acc ++ rs) w'.
Proof.
  induction 1 as [|p ps w s s1 w1 rs s2 w2 Hp Hs1 Hrest IH]; intros acc; cbn.
  - by rewrite app_nil_r.
  - rewrite Hp. cbn. rewrite IH. by rewrite <- app_assoc.
Qed.

Lemma sequenceOf_loop_error fuel ps :
  Forall passes_errors ps ->
  forall w e acc,
    isError e = true ->
    exists out, sequenceOf_loop ps fuel w e acc = Done (e, out) w.
Proof.
  induction 1 as [|p ps Hp Hps IH]; intros w e acc He; cbn.
  - eauto.
  - rewrite (Hp fuel w e He). cbn. by apply IH.
Qed.

Lemma sequenceOf_loop_success fuel ps :
  Forall passes_errors ps ->
  forall w s acc s' out w',
    sequenceOf_loop ps fuel w s acc = Done (s', out) w' ->
    isError s' = false ->
    exists rs, steps_ok fuel ps w s rs s' w' /\ out = acc ++ rs.
Proof.
  induction 1 as [|p ps Hp Hps IH]; intros w s acc s' out w'; cbn.
  - intros [= <- <- <-] _. exists []. split; [constructor | by rewrite app_nil_r].
  - destruct (p fuel w s) as [s1 w1| |] eqn:Hrun; cbn; try discriminate.
    intros Hloop Hs'.
    destruct (isError s1) eqn:Hs1.
    + destruct (sequenceOf_loop_error fuel ps Hps w1 s1 (acc ++ [result s1]) Hs1)
        as [out' Hout].
      rewrite Hout in Hloop. injection Hloop as <- <- <-. congruence.
    + destruct (IH _ _ _ _ _ _ Hloop Hs') as (rs & Hsteps & ->).
      exists (result s1 :: rs). split; [econstructor; eauto |].
      by rewrite <- app_assoc.
Qed.

Lemma sequenceOf_loop_runs_all fuel ps :
  forall w s acc s' out w',
    sequenceOf_loop ps fuel w s acc = Done (s', out) w'
    <-> exists rs, runs_all fuel ps w s rs s' w' /\ out = acc ++ rs.
Proof.
  induction ps as [|p ps IH]; intros w s acc s' out w'; cbn.
  - split.
    + intros [= <- <- <-]. exists []. split; [constructor | by rewrite app_nil_r].
    + intros (rs & Hruns & ->). inversion Hruns; subst. by rewrite app_nil_r.
  - destruct (p fuel w s) as [s1 w1| |] eqn:Hp; cbn.
    + rewrite IH. split.
      * intros (rs & Hruns & ->). exists (result s1 :: rs).
        split; [econstructor; eauto | by rewrite <- app_assoc].
      * intros (rs & Hruns & ->). inversion Hruns as [|? ? ? ? ? ? rs' ? ? Hp' Hrest];
          subst. rewrite Hp in Hp'. injection Hp' as <- <-.
        exists rs'. split; [assumption | by rewrite <- app_assoc].
    + split; [discriminate |].
      intros (rs & Hruns & _). inversion Hruns; subst. congruence.
    + split; [discriminate |].
      intros (rs & Hruns & _). inversion Hruns; subst. congruence.
Qed.

(** C2, as the code has it.  [sequenceOf] runs every parser of the list in
    order on the evolving state and has no early exit.  When each parser
    succeeds where the one before it left off, the outcome is the last state
    with the ordered sequence of the results as its result.  When a parser
    fails and each later parser hands error states back untouched, the
    outcome is the error state of the first failure.  For parsers that hand
    error states back untouched, [sequenceOf] succeeds only when each parser
    has succeeded in order.  In every case [sequenceOf] returns exactly when
    every parser of the list, run on the state the one before it returned,
    error state or not, has returned: the outcome is the state the last of
    them returned when that is an error state, and otherwise that state with
    the results of all the parsers as its result. *)
Theorem sequenceOf_runs_every_parser parsers (fuel : nat) w x :
  isError x = false ->
  (forall rs x' w',
      steps_ok fuel parsers w x rs x' w' ->
      sequenceOf parsers fuel w x = Done (updateParserResult x' (VArr rs)) w'
      /\ isError x' = false)
  /\ (forall pre (p : Parser) post rs x1 w1 e w2,
         parsers = pre ++ p :: post ->
         steps_ok fuel pre w x rs x1 w1 ->
         p fuel w1 x1 = Done e w2 ->
         isError e = true ->
         Forall passes_errors post ->
         sequenceOf parsers fuel w x = Done e w2)
  /\ (Forall passes_errors parsers ->
      forall r w',
        sequenceOf parsers fuel w x = Done r w' ->
        isError r = false ->
        exists rs x',
          steps_ok fuel parsers w x rs x' w'
          /\ r = updateParserResult x' (VArr rs))
  /\ (forall r w',
         sequenceOf parsers fuel w x = Done r w'
         <-> exists rs x',
               runs_all fuel parsers w x rs x' w'
               /\ r = if isError x' then x'
                      else updateParserResult x' (VArr rs)).
Proof.
  intros Hok. split; [| split; [| split]].
  - intros rs x' w' Hsteps.
    pose proof (steps_ok_isError _ _ _ _ _ _ _ Hsteps Hok) as Hx'.
    split; [| assumption]. cbn. rewrite Hok.
    rewrite (sequenceOf_loop_ok _ _ _ _ _ _ _ Hsteps). cbn. by rewrite Hx'.
  - intros pre p post rs x1 w1 e w2 -> Hsteps Hp He Hpost. cbn. rewrite Hok.
    assert (Hloop : forall acc, exists out,
               sequenceOf_loop (pre ++ p :: post) fuel w x acc = Done (e, out) w2).
    { clear Hok. induction Hsteps as [|q qs w s s1 w1 rs s2 w2' Hq Hs1 Hrest IH];
        intros acc; cbn.
      - rewrite Hp. cbn. by apply sequenceOf_loop_error.
      - rewrite Hq. cbn. by apply IH. }
    destruct (Hloop []) as [out ->]. cbn. by rewrite He.
  - intros Hpass r w'. cbn. rewrite Hok.
    destruct (sequenceOf_loop parsers fuel w x []) as [[s' out] w1| |] eqn:Hloop;
      cbn; try discriminate.
    destruct (isError s') eqn:Hs'.
    + intros [= <- <-] Hr. congruence.
    + intros [= <- <-] _.
      destruct (sequenceOf_loop_success fuel parsers Hpass _ _ _ _ _ _ Hloop Hs')
        as (rs & Hsteps & ->).
      eauto.
  - intros r w'. cbn. rewrite Hok. split.
    + destruct (sequenceOf_loop parsers fuel w x []) as [[s' out] w1| |] eqn:Hloop;
        cbn; try discriminate.
      apply sequenceOf_loop_runs_all in Hloop as (rs & Hruns & ->).
      destruct (isError s') eqn:Hs'; intros [= <- <-]; exists rs, s';
        rewrite Hs'; by split.
    + intros (rs & x' & Hruns & ->).
      assert (Hloop : sequenceOf_loop parsers fuel w x [] = Done (x', [] ++ rs) w')
        by (apply sequenceOf_loop_runs_all; eauto).
      rewrite Hloop. cbn. by destruct (isError x').
Qed.

Lemma sequenceOf_runs_every_parser_witness :
  sequenceOf [str (js "a"); digits] O empty_world (initialState (js "a1"))
  = Done (mkState (js "a1") 2 (VArr [VStr (js "a"); VStr (js "1")]) false VNull
            [] (VStr (js "1")) 2 2) empty_world.
Proof.
  destruct (sequenceOf_runs_every_parser [str (js "a"); digits] O empty_world
              (initialState (js "a1")) eq_refl) as [H _].
  refine (proj1 (H [VStr (js "a"); VStr (js "1")]
                   (mkState (js "a1") 2 (VStr (js "1")) false VNull []
                      (VStr (js "1")) 2 2) empty_world _)).
  eapply (steps_ok_cons O (str (js "a")) [digits] _ _
            (mkState (js "a1") 1 (VStr (js "a")) false VNull []
               (VStr (js "a")) 1 1) empty_world);
    [reflexivity | reflexivity |].
  eapply (steps_ok_cons O digits [] _ _
            (mkState (js "a1") 2 (VStr (js "1")) false VNull []
               (VStr (js "1")) 2 2) empty_world);
    [reflexivity | reflexivity | constructor].
Defined.

(** The loop does not stop at the first error.  On the input [x] the first
    parser fails; the second, [str "b"] with its error message mapped, is
    still run on the error state and rewrites it: what [sequenceOf] returns
    is not the state of the first error.  With [setCurState] of a non-error
    state in second place, the sequence succeeds although its first parser
    has failed. *)
Lemma sequenceOf_early_exit_counterexample :
  let p1 := str (js "a") in
  let p2 := errorMap (str (js "b")) (fun _ _ => VStr (js "expected b")) in
  let x := initialState (js "x") in
  exists e w1 r w2 r' w3,
    p1 O empty_world x = Done e w1 /\ isError e = true
    /\ sequenceOf [p1; p2] O empty_world x = Done r w2
    /\ error e = str_mismatch (js "a") (js "x") 0
    /\ error r = VStr (js "expected b")
    /\ r <> e
    /\ sequenceOf [p1; setCurState x] O empty_world x = Done r' w3
    /\ isError r' = false
    /\ result r' = VArr [VNull; VNull].
Proof.
  cbv zeta. eexists _, _, _, _, _, _.
  split; [vm_compute; reflexivity |].
  split; [reflexivity |].
  split; [vm_compute; reflexivity |].
  split; [reflexivity |].
  split; [reflexivity |].
  split; [intros H; apply (f_equal error) in H; discriminate H |].
  split; [vm_compute; reflexivity |].
  split; reflexivity.
Qed.

(** ** Zero or more, one or more *)

Section Repetition.

Variable parser : Parser.

Lemma reps_last_ok fuel w s rs last e w' :
  reps parser fuel w s rs last e w' ->
  isError s = false -> isError last = false.
Proof. induction 1; auto. Qed.

Lemma reps_none fuel w s rs last e w' :
  reps parser fuel w s rs last e w' -> rs = [] -> last = s.
Proof. destruct 1; [reflexivity | discriminate]. Qed.

Lemma many_loop_reps fuel w s rs last e w' :
  reps parser fuel w s rs last e w' ->
  forall iters lastSuccess acc,
    (length rs < iters)%nat ->
    many_loop parser iters fuel w s lastSuccess acc
    = Done (e, match rs with [] => lastSuccess | _ => last end, acc ++ rs) w'.
Proof.
  induction 1 as [w s e w' Hp He | w s s1 w1 rs last e w' Hp Hs1 Hrest IH];
    intros [|iters] lastSuccess acc Hlen; cbn in Hlen; try lia; cbn.
  - rewrite Hp. cbn. rewrite He. cbn. by rewrite app_nil_r.
  - rewrite Hp. cbn. rewrite Hs1. cbn.
    rewrite IH by lia. rewrite <- app_assoc. cbn.
    destruct rs; [| reflexivity].
    by rewrite (reps_none _ _ _ _ _ _ _ Hrest eq_refl).
Qed.

Lemma many_loop_ok fuel iters :
  forall w s lastSuccess acc e last out w',
    many_loop parser iters fuel w s lastSuccess acc = Done (e, last, out) w' ->
    isError lastSuccess = false ->
    isError last = false.
Proof.
  induction iters as [|iters IH]; intros w s lastSuccess acc e last out w'; cbn;
    [discriminate |].
  destruct (parser fuel w s) as [s1 w1| |]; cbn; try discriminate.
  destruct (isError s1) eqn:Hs1; cbn.
  - intros [= <- <- <- <-] H. exact H.
  - intros Hloop _. eapply IH; eauto.
Qed.

(** C3, as the code has it.  On a non-error state [many] never returns an
    error state.  When the applications of the parser to the evolving state
    succeed a number of times below the bound and then fail, [many] returns:
    the results of the successes in order; the target, the index, the error
    field and the [lastMatchedParserIndex] of the last success, which is the
    starting state when there is none; and the [errorChain],
    [lastMatchedToken] and [lastMatchedTokenIndex] of the failing attempt. *)
Theorem many_never_fails (fuel : nat) w x :
  isError x = false ->
  (forall r w', many parser fuel w x = Done r w' -> isError r = false)
  /\ (forall rs last e w',
         reps parser fuel w x rs last e w' ->
         (length rs < fuel)%nat ->
         exists r,
           many parser fuel w x = Done r w'
           /\ isError r = false
           /\ result r = VArr rs
           /\ target r = target last
           /\ index r = index last
           /\ error r = error last
           /\ lastMatchedParserIndex r = lastMatchedParserIndex last
           /\ errorChain r = errorChain e
           /\ lastMatchedToken r = lastMatchedToken e
           /\ lastMatchedTokenIndex r = lastMatchedTokenIndex e
           /\ (rs = [] -> last = x)).
Proof.
  intros Hok. split.
  - intros r w'. cbn. rewrite Hok.
    destruct (many_loop parser fuel fuel w x x [])
      as [[[e last] out] w1| |] eqn:Hloop; cbn; try discriminate.
    intros [= <- <-]. cbn. eapply many_loop_ok; eauto.
  - intros rs last e w' Hreps Hlen.
    pose proof (reps_last_ok _ _ _ _ _ _ _ Hreps Hok) as Hlast.
    eexists. split.
    + cbn. rewrite Hok.
      rewrite (many_loop_reps _ _ _ _ _ _ _ Hreps fuel x [] Hlen). reflexivity.
    + cbn. destruct rs.
      * rewrite (reps_none _ _ _ _ _ _ _ Hreps eq_refl). by rewrite Hok.
      * rewrite Hlast. repeat split; auto. discriminate.
Qed.

(** X23.  The loop of [many] ends at a failure only: with a parser that succeeds on
    every non-error state the bound is used up, whatever it is. *)
Lemma many_needs_a_failure (fuel : nat) w x :
  (forall w s, isError s = false ->
               exists s' w', parser fuel w s = Done s' w' /\ isError s' = false) ->
  isError x = false ->
  many parser fuel w x = Timeout.
Proof.
  intros Halways Hok. cbn. rewrite Hok.
  assert (Hloop : forall iters w s last acc,
             isError s = false ->
             many_loop parser iters fuel w s last acc = Timeout).
  { induction iters as [|iters IH]; intros w0 s last acc Hs; cbn; [reflexivity |].
    destruct (Halways w0 s Hs) as (s' & w' & -> & Hs'). cbn. rewrite Hs'. cbn.
    by apply IH. }
  by rewrite Hloop.
Qed.

(** The two loops are one loop: they differ in the names of the variables,
    and in the order they are handed back in here. *)
Lemma manyOne_loop_many fuel iters :
  forall w s acc,
    manyOne_loop parser iters fuel w s acc
    = let* (out, w) := many_loop parser iters fuel w s s acc in
      let '(nextState, lastSuccessState, results) := out in
      Done (lastSuccessState, nextState, results) w.
Proof.
  induction iters as [|iters IH]; intros w s acc; cbn; [reflexivity |].
  destruct (parser fuel w s) as [s1 w1| |]; cbn; try reflexivity.
  destruct (isError s1); cbn; [reflexivity | apply IH].
Qed.

Lemma many_loop_results fuel iters :
  forall w s lastSuccess acc e last out w',
    many_loop parser iters fuel w s lastSuccess acc = Done (e, last, out) w' ->
    exists rs, out = acc ++ rs.
Proof.
  induction iters as [|iters IH]; intros w s lastSuccess acc e last out w'; cbn;
    [discriminate |].
  destruct (parser fuel w s) as [s1 w1| |]; cbn; try discriminate.
  destruct (isError s1); cbn.
  - intros [= <- <- <- <-]. exists []. by rewrite app_nil_r.
  - intros Hloop. apply IH in Hloop as [rs ->].
    exists (result s1 :: rs). by rewrite <- app_assoc.
Qed.


End Repetition.

Lemma many_never_fails_witness :
  exists r,
    many digits 3%nat empty_world (initialState (js "12"))
    = Done r (filed (mkState (js "12") 2 (VStr (js "12")) false VNull []
                         (VStr (js "12")) 2 2)
                (PRegExp (re_class_plus (js "/^[0-9]+/") is_digit)) empty_world)
    /\ isError r = false
    /\ result r = VArr [VStr (js "12")].
Proof.
  destruct (many_never_fails digits 3%nat empty_world (initialState (js "12")) eq_refl)
    as [_ H].
  destruct (H [VStr (js "12")]
              (mkState (js "12") 2 (VStr (js "12")) false VNull []
                 (VStr (js "12")) 2 2)
              (updateParserError
                 (mkState (js "12") 2 (VStr (js "12")) false VNull []
                    (VStr (js "12")) 2 2)
                 (regex_unexpected (re_class_plus (js "/^[0-9]+/") is_digit)
                    (js "digits") 2))
              (filed (mkState (js "12") 2 (VStr (js "12")) false VNull []
                          (VStr (js "12")) 2 2)
                (PRegExp (re_class_plus (js "/^[0-9]+/") is_digit)) empty_world))
    as (r & Hr & He & Hres & _).
  - eapply (reps_more digits 3%nat _ _
              (mkState (js "12") 2 (VStr (js "12")) false VNull []
                 (VStr (js "12")) 2 2) empty_world);
      [reflexivity | reflexivity |].
    apply reps_stop; reflexivity.
  - cbn. lia.
  - exists r. auto.
Defined.

(** The [lastMatchedParserIndex] of the state [many] returns is not that of
    the failing attempt.  On the input [abac] the pair [a], [b] is matched
    once; the second attempt matches [a], which moves its marks to offset 3,
    and fails on [c].  The state returned has [lastMatchedTokenIndex] 3 and
    [lastMatchedParserIndex] 2. *)
Lemma many_parser_index_counterexample :
  let p := sequenceOf [str (js "a"); str (js "b")] in
  let x := initialState (js "abac") in
  exists s1 w1 e w2 r w3,
    p 5%nat empty_world x = Done s1 w1 /\ isError s1 = false
    /\ p 5%nat w1 s1 = Done e w2 /\ isError e = true
    /\ many p 5%nat empty_world x = Done r w3
    /\ lastMatchedParserIndex e = 3
    /\ lastMatchedTokenIndex r = 3
    /\ lastMatchedParserIndex r = 2.
Proof.
  cbv zeta. eexists _, _, _, _, _, _.
  split; [vm_compute; reflexivity |].
  split; [reflexivity |].
  split; [vm_compute; reflexivity |].
  split; [reflexivity |].
  split; [vm_compute; reflexivity |].
  repeat split.
Qed.


(** ** Separated lists *)

Section SeparatedList.

Variables sep val : Parser.

Lemma alternates_stop_ok fuel w s rs stop thing w' :
  alternates sep val fuel w s rs stop thing w' ->
  isError s = false -> isError stop = false.
Proof. induction 1; auto. Qed.

Lemma sepBy_loop_alternates fuel w s rs stop thing w' :
  alternates sep val fuel w s rs stop thing w' ->
  forall iters acc,
    (length rs < iters)%nat ->
    sepBy_loop sep val iters fuel w s acc = Done (stop, thing, acc ++ rs) w'.
Proof.
  induction 1 as [w s e w' Hv He
                  | w s v w1 e w2 Hv Hok Hs He
                  | w s v w1 s2 w2 rs stop thing w3 Hv Hok Hs Hs2 Hrest IH];
    intros [|iters] acc Hlen; cbn in Hlen; try lia; cbn.
  - rewrite Hv. cbn. rewrite He. by rewrite app_nil_r.
  - rewrite Hv. cbn. rewrite Hok. rewrite Hs. cbn. by rewrite He.
  - rewrite Hv. cbn. rewrite Hok. rewrite Hs. cbn. rewrite Hs2.
    rewrite IH by lia. by rewrite <- app_assoc.
Qed.

Lemma sepBy_loop_sound fuel iters :
  forall w s acc stop thing out w',
    sepBy_loop sep val iters fuel w s acc = Done (stop, thing, out) w' ->
    exists rs, alternates sep val fuel w s rs stop thing w' /\ out = acc ++ rs.
Proof.
  induction iters as [|iters IH]; intros w s acc stop thing out w'; cbn;
    [discriminate |].
  destruct (val fuel w s) as [v w1| |] eqn:Hv; cbn; try discriminate.
  destruct (isError v) eqn:Hok.
  - intros [= <- <- <- <-]. exists []. split; [by constructor | by rewrite app_nil_r].
  - destruct (sep fuel w1 v) as [s2 w2| |] eqn:Hs; cbn; try discriminate.
    destruct (isError s2) eqn:Hs2.
    + intros [= <- <- <- <-]. exists [result v]. split; [| reflexivity].
      eapply alternates_separator_fails; eauto.
    + intros Hloop. destruct (IH _ _ _ _ _ _ _ Hloop) as (rs & Halt & ->).
      exists (result v :: rs). split; [| by rewrite <- app_assoc].
      eapply alternates_more; eauto.
Qed.

End SeparatedList.

(** C5.  On a non-error state [sepBy] never returns an error state: what it
    returns is the outcome of alternating the value parser and the separator
    until one of them fails, with the values collected so far as the result;
    and when that alternation stops within the bound, [sepBy] returns.  With
    the separator [,] and the parser [digits], the input [1,2,3] gives the
    three numerals and the empty input gives the empty sequence, neither
    with an error. *)
Theorem sepBy_never_fails :
  (forall (sep val : Parser) (fuel : nat) w x,
      isError x = false ->
      (forall r w',
          sepBy sep val fuel w x = Done r w' ->
          isError r = false
          /\ exists rs stop thing,
               alternates sep val fuel w x rs stop thing w'
               /\ r = updateParserResult (withDiagnostics stop thing) (VArr rs))
      /\ (forall rs stop thing w',
             alternates sep val fuel w x rs stop thing w' ->
             (length rs < fuel)%nat ->
             sepBy sep val fuel w x
             = Done (updateParserResult (withDiagnostics stop thing) (VArr rs)) w'))
  /\ (forall fuel : nat,
         (3 < fuel)%nat ->
         exists r w',
           run (sepBy (str (js ",")) digits) (js "1,2,3") fuel empty_world
           = Done r w'
           /\ result r = VArr [VStr (js "1"); VStr (js "2"); VStr (js "3")]
           /\ isError r = false)
  /\ (forall fuel : nat,
         (0 < fuel)%nat ->
         exists r w',
           run (sepBy (str (js ",")) digits) [] fuel empty_world = Done r w'
           /\ result r = VArr []
           /\ isError r = false).
Proof.
  split; [| split].
  - intros sep val fuel w x Hok. split.
    + intros r w'. cbn. rewrite Hok.
      destruct (sepBy_loop sep val fuel fuel w x [])
        as [[[stop thing] out] w1| |] eqn:Hloop; cbn; try discriminate.
      intros [= <- <-].
      destruct (sepBy_loop_sound _ _ _ _ _ _ _ _ _ _ _ Hloop) as (rs & Halt & ->).
      split; [| eauto].
      cbn. eapply alternates_stop_ok; eauto.
    + intros rs stop thing w' Halt Hlen. cbn. rewrite Hok.
      by rewrite (sepBy_loop_alternates _ _ _ _ _ _ _ _ _ Halt fuel []).
  - intros fuel Hfuel.
    destruct fuel as [|[|[|[|fuel]]]]; try lia.
    eexists _, _. split; [vm_compute; reflexivity |]. split; reflexivity.
  - intros fuel Hfuel.
    destruct fuel as [|fuel]; try lia.
    eexists _, _. split; [vm_compute; reflexivity |]. split; reflexivity.
Qed.

Lemma sepBy_never_fails_witness :
  exists r w',
    run (sepBy (str (js ",")) digits) (js "1,2,3") 4 empty_world = Done r w'
    /\ result r = VArr [VStr (js "1"); VStr (js "2"); VStr (js "3")]
    /\ isError r = false.
Proof.
  destruct sepBy_never_fails as (_ & H & _).
  apply (H 4%nat). lia.
Defined.

(** ** Sequences with a separator *)

Lemma interleaved_cons (sep p q : Parser) rest fuel w s acc :
  interleaved sep (p :: q :: rest) fuel w s acc
  = let* (s1, w1) := p fuel w s in
    let* (s2, w2) := sep fuel w1 s1 in
    interleaved sep (q :: rest) fuel w2 s2 (acc ++ [result s1]).
Proof. reflexivity. Qed.

Lemma sequenceSepBy_loop_interleaved (sep : Parser) fuel rest :
  rest <> [] ->
  forall pre w s acc,
    (let* (out, w) :=
       sequenceSepBy_loop sep (pre ++ rest) (length rest - 1) (length pre)
                          fuel w s acc in
     let '(nextState, results, count) := out in
     match ((pre ++ rest) !! count : option Parser) with
     | None => Thrown
     | Some parser =>
         let* (nextState, w) := parser fuel w nextState in
         Done (nextState, results ++ [result nextState]) w
     end)
    = interleaved sep rest fuel w s acc.
Proof.
  induction rest as [|p rest IH]; [contradiction |]. intros _ pre w s acc.
  assert (Hp : ((pre ++ p :: rest) !! length pre : option Parser) = Some p).
  { by rewrite lookup_app_r, Nat.sub_diag by lia. }
  destruct rest as [|q rest].
  - cbn. rewrite Hp. reflexivity.
  - rewrite interleaved_cons.
    replace (length (p :: q :: rest) - 1)%nat with (S (length rest))
      by (cbn; lia).
    cbn [sequenceSepBy_loop]. rewrite Hp. cbn.
    destruct (p fuel w s) as [s1 w1| |]; cbn; try reflexivity.
    destruct (sep fuel w1 s1) as [s2 w2| |]; cbn; try reflexivity.
    specialize (IH ltac:(discriminate) (pre ++ [p]) w2 s2 (acc ++ [result s1])).
    rewrite <- app_assoc in IH. cbn [app] in IH.
    replace (length (q :: rest) - 1)%nat with (length rest) in IH
      by (cbn; lia).
    replace (length (pre ++ [p])) with (S (length pre)) in IH
      by (rewrite length_app; cbn; lia).
    exact IH.
Qed.

Lemma sequenceSepBy_interleaved (sep : Parser) parsers fuel w x :
  parsers <> [] ->
  isError x = false ->
  sequenceSepBy sep parsers fuel w x
  = sequence_outcome (interleaved sep parsers fuel w x []).
Proof.
  intros Hne Hok.
  rewrite <- (sequenceSepBy_loop_interleaved sep fuel parsers Hne [] w x []).
  cbn. rewrite Hok.
  destruct (sequenceSepBy_loop sep parsers (length parsers - 1) 0 fuel w x [])
    as [[[s1 rs] count] w1| |]; cbn; try reflexivity.
  destruct (parsers !! count) as [p|]; cbn; [| reflexivity].
  destruct (p fuel w1 s1) as [s2 w2| |]; reflexivity.
Qed.

Lemma halts_steady (p : Parser) w s :
  halts p -> steady p ->
  exists (fuel0 : nat) r w',
    forall fuel : nat, (fuel0 <= fuel)%nat -> p fuel w s = Done r w'.
Proof.
  intros Hh Hs. destruct (Hh w s) as (fuel0 & r & w' & Hrun).
  exists fuel0, r, w'. intros fuel Hle. eapply Hs; eauto.
Qed.

Lemma interleaved_halts (sep : Parser) parsers :
  halts sep -> steady sep ->
  Forall halts parsers -> Forall steady parsers ->
  parsers <> [] ->
  forall w s acc,
    exists (fuel0 : nat) out w',
      forall fuel : nat,
        (fuel0 <= fuel)%nat -> interleaved sep parsers fuel w s acc = Done out w'.
Proof.
  intros Hsh Hss Hh Hs.
  induction parsers as [|p rest IH]; [contradiction |]. intros _ w s acc.
  inversion Hh as [|? ? Hph Hresth]; subst.
  inversion Hs as [|? ? Hps Hrests]; subst.
  destruct (halts_steady p w s Hph Hps) as (f1 & s1 & w1 & Hp).
  destruct rest as [|q rest].
  - exists f1, (s1, acc ++ [result s1]), w1. intros fuel Hle. cbn.
    by rewrite Hp.
  - destruct (halts_steady sep w1 s1 Hsh Hss) as (f2 & s2 & w2 & Hsep).
    destruct (IH Hresth Hrests ltac:(discriminate) w2 s2 (acc ++ [result s1]))
      as (f3 & out & w3 & Hrest).
    exists (f1 `max` (f2 `max` f3))%nat, out, w3. intros fuel Hle.
    rewrite interleaved_cons. rewrite Hp by lia. cbn [bind].
    rewrite Hsep by lia. cbn [bind]. apply Hrest. lia.
Qed.


Lemma steady_eat terminal : steady (eat terminal).
Proof. intros fuel fuel' w st r w' H _. exact H. Qed.

Lemma halts_eat terminal : halts (eat terminal).
Proof.
  intros w st. exists O. cbn.
  destruct (isError st); [eauto |].
  destruct (negb _); eauto.
Qed.

Lemma steady_peek : steady peek.
Proof. intros fuel fuel' w st r w' H _. exact H. Qed.

Lemma halts_peek : halts peek.
Proof. intros w st. exists O. cbn. eauto. Qed.


(** ** Offsets *)

Lemma advances_refl s : in_bounds s -> advances s s.
Proof. unfold in_bounds, advances. intros H. split; [reflexivity | lia]. Qed.

Lemma advances_trans a b c : advances a b -> advances b c -> advances a c.
Proof.
  unfold advances. intros [Ht1 H1] [Ht2 H2]. rewrite Ht1 in *. split; [assumption | lia].
Qed.

Lemma advances_in_bounds a b : in_bounds a -> advances a b -> in_bounds b.
Proof. unfold advances, in_bounds. intros Ha [-> H]. lia. Qed.

Create HintDb offsets.
#[local] Hint Resolve advances_refl advances_trans advances_in_bounds : offsets.

Ltac same_state :=
  intros [= <- <-] Hb; unfold in_bounds in Hb; split; cbn; [reflexivity | lia].

Ltac moved st :=
  intros [= <- <-] Hb;
  pose proof (length_slice_from (target st) (index st) Hb);
  unfold in_bounds in Hb; split; cbn; [reflexivity | lia].

Lemma index_safe_str s : index_safe (str s).
Proof.
  intros fuel w st r w'. cbn.
  destruct (isError st); [same_state |].
  destruct (_ =? _)%nat; [was_filed; same_state |].
  destruct (startsWith _ s) eqn:Hs; [| was_filed; same_state].
  apply startsWith_length in Hs.
  destruct (isSeparation s separators); moved st.
Qed.

Lemma index_safe_regexParserFactory regex regexType :
  re_wf regex -> index_safe (regexParserFactory regex regexType).
Proof.
  intros Hwf fuel w st r w'. cbn.
  destruct (isError st); [same_state |].
  destruct (_ && _); [was_filed; same_state |].
  destruct (re_match regex _) as [[i matched]|] eqn:Hm; [| was_filed; same_state].
  apply Hwf in Hm as [Hm _].
  destruct (isSeparation matched separators); moved st.
Qed.

Lemma index_safe_eat terminal : re_wf terminal -> index_safe (eat terminal).
Proof.
  intros Hwf fuel w st r w'. cbn.
  destruct (isError st); [same_state |].
  destruct (re_match terminal _) as [[i matched]|] eqn:Hm.
  - apply Hwf in Hm as [Hm _].
    destruct (Z.eqb_spec (Z.of_nat i) (-1)); [lia |]. cbn. moved st.
  - cbn. moved st.
Qed.

Lemma index_safe_succeed value : index_safe (succeed value).
Proof.
  intros fuel w st r w'. cbn.
  destruct (isError st); [same_state | moved st].
Qed.

Lemma index_safe_peek : index_safe peek.
Proof.
  intros fuel w st r w'. cbn. intros [= <- <-] Hb.
  split; cbn; [reflexivity | unfold in_bounds in Hb; lia].
Qed.

Lemma index_safe_getCurState : index_safe getCurState.
Proof. intros fuel w st r w'. cbn. intros [= <- <-] Hb. auto with offsets. Qed.

Lemma index_safe_lazy thunkParser :
  index_safe (thunkParser tt) -> index_safe (lazy thunkParser).
Proof. intros H fuel w st r w'. cbn. apply H. Qed.

Lemma index_safe_map parser fn : index_safe parser -> index_safe (map parser fn).
Proof.
  intros H fuel w st r w'. cbn.
  destruct (parser fuel w st) as [s1 w1| |] eqn:Hp; cbn; try discriminate.
  intros Hrun Hb. specialize (H _ _ _ _ _ Hp Hb).
  destruct (isError s1); injection Hrun as <- <-; exact H.
Qed.

Lemma index_safe_errorMap parser fn :
  index_safe parser -> index_safe (errorMap parser fn).
Proof.
  intros H fuel w st r w'. cbn.
  destruct (parser fuel w st) as [s1 w1| |] eqn:Hp; cbn; try discriminate.
  intros Hrun Hb. specialize (H _ _ _ _ _ Hp Hb).
  destruct (isError s1); injection Hrun as <- <-; exact H.
Qed.

Lemma index_safe_chain parser fn :
  index_safe parser -> (forall st, index_safe (fn st)) ->
  index_safe (chain parser fn).
Proof.
  intros H Hfn fuel w st r w'. cbn.
  destruct (parser fuel w st) as [s1 w1| |] eqn:Hp; cbn; try discriminate.
  intros Hrun Hb. specialize (H _ _ _ _ _ Hp Hb).
  destruct (isError s1); [by injection Hrun as <- <- |].
  eapply advances_trans; [exact H |].
  eapply Hfn; eauto with offsets.
Qed.

Lemma sequenceOf_loop_advances fuel parsers :
  Forall index_safe parsers ->
  forall w s acc s' out w',
    sequenceOf_loop parsers fuel w s acc = Done (s', out) w' ->
    in_bounds s -> advances s s'.
Proof.
  induction 1 as [|p ps Hp Hps IH]; intros w s acc s' out w'; cbn.
  - intros [= <- <- <-] Hb. auto with offsets.
  - destruct (p fuel w s) as [s1 w1| |] eqn:Hrun; cbn; try discriminate.
    intros Hloop Hb. specialize (Hp _ _ _ _ _ Hrun Hb).
    eapply advances_trans; [exact Hp |].
    eapply IH; eauto with offsets.
Qed.

Lemma index_safe_sequenceOf parsers :
  Forall index_safe parsers -> index_safe (sequenceOf parsers).
Proof.
  intros H fuel w st r w'. cbn.
  destruct (isError st); [same_state |].
  destruct (sequenceOf_loop parsers fuel w st []) as [[s1 out] w1| |] eqn:Hloop;
    cbn; try discriminate.
  intros Hrun Hb.
  pose proof (sequenceOf_loop_advances _ _ H _ _ _ _ _ _ Hloop Hb) as Hadv.
  destruct (isError s1); injection Hrun as <- <-; exact Hadv.
Qed.

Lemma choice_loop_advances fuel parsers :
  Forall index_safe parsers ->
  forall w x token tokenIndex pre r w',
    choice_loop parsers fuel w x token tokenIndex pre = Done r w' ->
    in_bounds x -> advances x r.
Proof.
  induction 1 as [|p ps Hp Hps IH]; intros w x tok idx pre r w'; cbn.
  - same_state.
  - destruct (p fuel w x) as [s1 w1| |] eqn:Hrun; cbn; try discriminate.
    destruct (isError s1); cbn.
    + destruct (_ && _); apply IH.
    + intros [= <- <-] Hb. eapply Hp; eauto.
Qed.

Lemma index_safe_choice parsers :
  Forall index_safe parsers -> index_safe (choice parsers).
Proof.
  intros H fuel w st r w'. cbn.
  destruct (isError st); [same_state |].
  by apply choice_loop_advances.
Qed.

Lemma many_loop_advances (parser : Parser) fuel x :
  index_safe parser ->
  forall iters w s lastSuccess acc e last out w',
    many_loop parser iters fuel w s lastSuccess acc = Done (e, last, out) w' ->
    in_bounds x -> advances x s -> advances x lastSuccess ->
    advances x last.
Proof.
  intros Hp. induction iters as [|iters IH];
    intros w s lastSuccess acc e last out w'; cbn; [discriminate |].
  destruct (parser fuel w s) as [s1 w1| |] eqn:Hrun; cbn; try discriminate.
  destruct (isError s1); cbn.
  - intros [= <- <- <- <-] Hb Hs Hlast. exact Hlast.
  - intros Hloop Hb Hs Hlast.
    assert (advances x s1).
    { eapply advances_trans; [exact Hs |]. eapply Hp; eauto with offsets. }
    eapply IH; eauto.
Qed.

Lemma index_safe_many parser : index_safe parser -> index_safe (many parser).
Proof.
  intros H fuel w st r w'. cbn.
  destruct (isError st); [same_state |].
  destruct (many_loop parser fuel fuel w st st [])
    as [[[e last] out] w1| |] eqn:Hloop; cbn; try discriminate.
  intros [= <- <-] Hb.
  eapply (many_loop_advances parser fuel st) in Hloop; eauto with offsets.
Qed.

Lemma index_safe_manyOne parser :
  index_safe parser -> index_safe (manyOne parser).
Proof.
  intros H fuel w st r w'. cbn.
  destruct (isError st); [same_state |].
  rewrite manyOne_loop_many.
  destruct (many_loop parser fuel fuel w st st [])
    as [[[e last] out] w1| |] eqn:Hloop; cbn; try discriminate.
  destruct (_ =? _)%nat; [same_state |].
  intros [= <- <-] Hb.
  eapply (many_loop_advances parser fuel st) in Hloop; eauto with offsets.
Qed.

Lemma sepBy_loop_advances (sep val : Parser) fuel x :
  index_safe sep -> index_safe val ->
  forall iters w s acc stop thing out w',
    sepBy_loop sep val iters fuel w s acc = Done (stop, thing, out) w' ->
    in_bounds x -> advances x s ->
    advances x stop.
Proof.
  intros Hsep Hval. induction iters as [|iters IH];
    intros w s acc stop thing out w'; cbn; [discriminate |].
  destruct (val fuel w s) as [v w1| |] eqn:Hv; cbn; try discriminate.
  destruct (isError v).
  - intros [= <- <- <- <-] Hb Hs. exact Hs.
  - destruct (sep fuel w1 v) as [s2 w2| |] eqn:Hs2; cbn; try discriminate.
    assert (Hadv : in_bounds x -> advances x s -> advances x v).
    { intros Hb Hs. eapply advances_trans; [exact Hs |].
      eapply Hval; eauto with offsets. }
    destruct (isError s2).
    + intros [= <- <- <- <-] Hb Hs. auto.
    + intros Hloop Hb Hs. eapply IH; eauto.
      eapply advances_trans; [exact (Hadv Hb Hs) |].
      eapply Hsep; eauto with offsets.
Qed.

Lemma index_safe_sepBy sep val :
  index_safe sep -> index_safe val -> index_safe (sepBy sep val).
Proof.
  intros Hsep Hval fuel w st r w'. cbn.
  destruct (isError st); [same_state |].
  destruct (sepBy_loop sep val fuel fuel w st [])
    as [[[stop thing] out] w1| |] eqn:Hloop; cbn; try discriminate.
  intros [= <- <-] Hb.
  eapply (sepBy_loop_advances sep val fuel st) in Hloop; eauto with offsets.
Qed.

Lemma index_safe_sepByOne sep val :
  index_safe sep -> index_safe val -> index_safe (sepByOne sep val).
Proof.
  intros Hsep Hval fuel w st r w'. cbn.
  destruct (isError st); [same_state |].
  destruct (sepBy_loop sep val fuel fuel w st [])
    as [[[stop thing] out] w1| |] eqn:Hloop; cbn; try discriminate.
  destruct (_ =? _)%nat; [same_state |].
  intros [= <- <-] Hb.
  eapply (sepBy_loop_advances sep val fuel st) in Hloop; eauto with offsets.
Qed.

Lemma sequenceSepBy_loop_advances (sep : Parser) parsers fuel :
  index_safe sep -> Forall index_safe parsers ->
  forall iters count w s acc s' out count' w',
    sequenceSepBy_loop sep parsers iters count fuel w s acc
    = Done (s', out, count') w' ->
    in_bounds s -> advances s s'.
Proof.
  intros Hsep Hps. induction iters as [|iters IH];
    intros count w s acc s' out count' w'; cbn.
  - intros [= <- <- <- <-] Hb. auto with offsets.
  - destruct (parsers !! count) as [p|] eqn:Hlook; cbn; try discriminate.
    assert (Hp : index_safe p) by (eapply Forall_lookup_1; eauto).
    destruct (p fuel w s) as [s1 w1| |] eqn:Hrun; cbn; try discriminate.
    destruct (sep fuel w1 s1) as [s2 w2| |] eqn:Hrun2; cbn; try discriminate.
    intros Hloop Hb.
    specialize (Hp _ _ _ _ _ Hrun Hb).
    assert (advances s s2).
    { eapply advances_trans; [exact Hp |]. eapply Hsep; eauto with offsets. }
    eapply advances_trans; [eassumption |].
    eapply IH; eauto with offsets.
Qed.

Lemma index_safe_sequenceSepBy sep parsers :
  index_safe sep -> Forall index_safe parsers ->
  index_safe (sequenceSepBy sep parsers).
Proof.
  intros Hsep Hps fuel w st r w'. cbn.
  destruct (isError st); [same_state |].
  destruct (sequenceSepBy_loop sep parsers (length parsers - 1) 0 fuel w st [])
    as [[[s1 out] count] w1| |] eqn:Hloop; cbn; try discriminate.
  destruct (parsers !! count) as [p|] eqn:Hlook; cbn; try discriminate.
  assert (Hp : index_safe p) by (eapply Forall_lookup_1; eauto).
  destruct (p fuel w1 s1) as [s2 w2| |] eqn:Hrun; cbn; try discriminate.
  intros Hout Hb.
  pose proof (sequenceSepBy_loop_advances _ _ _ Hsep Hps _ _ _ _ _ _ _ _ _
                Hloop Hb) as Hadv.
  assert (advances st s2).
  { eapply advances_trans; [exact Hadv |]. eapply Hp; eauto with offsets. }
  destruct (isError s2); injection Hout as <- <-; assumption.
Qed.

Lemma Public_index_safe p : Public p -> index_safe p.
Proof.
  revert p.
  apply (Public_min index_safe (Forall index_safe));
    eauto using index_safe_regexParserFactory, index_safe_str, index_safe_eat,
      index_safe_sequenceOf, index_safe_choice, index_safe_many,
      index_safe_manyOne, index_safe_sepBy, index_safe_sepByOne,
      index_safe_succeed, index_safe_lazy, index_safe_sequenceSepBy,
      index_safe_peek, index_safe_getCurState, index_safe_map,
      index_safe_errorMap, index_safe_chain.
Qed.

Lemma span_length cls (t : jsstring) : (length (span cls t) <= length t)%nat.
Proof.
  induction t as [|c t IH]; cbn; [lia |].
  destruct (cls c); cbn; lia.
Qed.

Lemma span_prefix cls (t : jsstring) :
  span cls t = take (length (span cls t)) t.
Proof.
  induction t as [|c t IH]; cbn; [reflexivity |].
  destruct (cls c); cbn; [| reflexivity]. by rewrite <- IH.
Qed.

Lemma re_wf_class_plus text cls : re_wf (re_class_plus text cls).
Proof.
  intros t i m. cbn.
  pose proof (span_length cls t) as Hlen. pose proof (span_prefix cls t) as Hpre.
  destruct (span cls t) as [|c rest] eqn:Hspan; [discriminate |].
  intros [= <- <-]. split; [cbn in *; lia | exact Hpre].
Qed.

Lemma find_char_spec c (t : jsstring) i :
  find_char c t = Some i ->
  (i < length t)%nat /\ [c] = take 1 (drop i t).
Proof.
  revert i. induction t as [|d t IH]; intros i; cbn; [discriminate |].
  destruct (N.eqb_spec d c) as [->|Hne].
  - intros [= <-]. split; [lia | reflexivity].
  - destruct (find_char c t) as [j|]; cbn; [| discriminate].
    intros [= <-]. destruct (IH j eq_refl) as [Hlt Heq]. split; [lia | exact Heq].
Qed.

Lemma re_wf_char text c : re_wf (re_char text c).
Proof.
  intros t i m. cbn.
  destruct (find_char c t) as [j|] eqn:Hj; [| discriminate].
  intros [= <- <-]. apply find_char_spec in Hj as [Hlt Heq].
  split; [cbn; lia | exact Heq].
Qed.

Lemma Public_letters : Public letters.
Proof. apply Public_regexParserFactory, re_wf_class_plus. Qed.

Lemma Public_digits : Public digits.
Proof. apply Public_regexParserFactory, re_wf_class_plus. Qed.

Lemma Public_caseStr RegExp_new :
  (forall pattern flags, re_wf (RegExp_new pattern flags)) ->
  forall s,
    Public (caseStr RegExp_new s)
    /\ Public (strictCaseStr RegExp_new s)
    /\ Public (strictStr RegExp_new s).
Proof.
  intros Hwf s. repeat split; apply Public_regexParserFactory, Hwf.
Qed.

Lemma Public_between l r c :
  Public l -> Public r -> Public c -> Public (between l r c).
Proof.
  intros Hl Hr Hc. apply Public_map, Public_sequenceOf.
  repeat (constructor; [assumption |]). constructor.
Qed.

Lemma Public_oneOrZero p : Public p -> Public (oneOrZero p).
Proof.
  intros Hp. apply Public_choice.
  constructor; [assumption |]. constructor; [apply Public_succeed | constructor].
Qed.

Lemma Public_runStep gen : PublicGen gen -> Public (runStep gen).
Proof.
  induction 1 as [value | nextParser resume Hp Hk IH]; cbn.
  - apply Public_succeed.
  - by apply Public_chain.
Qed.

Lemma Public_contextual parserGenerator :
  PublicGen (parserGenerator tt) -> Public (contextual parserGenerator).
Proof.
  intros H. apply Public_chain; [apply Public_succeed |].
  intros _. by apply Public_runStep.
Qed.

Lemma fails_in_place_matcher p : is_matcher p -> fails_in_place p.
Proof.
  intros [(regex & regexType & ->) | (s & ->)] fuel w st r w' Hok; cbn;
    rewrite Hok.
  - destruct (_ && _); [was_filed; by intros [= <- <-] |].
    destruct (re_match regex _) as [[i matched]|];
      [| was_filed; by intros [= <- <-]].
    destruct (isSeparation _ _); intros [= <- <-]; cbn; congruence.
  - destruct (_ =? _)%nat; [was_filed; by intros [= <- <-] |].
    destruct (startsWith _ _); [| was_filed; by intros [= <- <-]].
    destruct (isSeparation _ _); intros [= <- <-]; cbn; congruence.
Qed.

Lemma choice_loop_fails fuel parsers :
  forall w x token tokenIndex pre r w',
    choice_loop parsers fuel w x token tokenIndex pre = Done r w' ->
    isError r = true ->
    index r = index x.
Proof.
  induction parsers as [|p ps IH]; intros w x tok idx pre r w'; cbn.
  - by intros [= <- <-].
  - destruct (p fuel w x) as [s1 w1| |]; cbn; try discriminate.
    destruct (isError s1) eqn:Hs1; cbn.
    + destruct (_ && _); apply IH.
    + intros [= <- <-]. congruence.
Qed.

Lemma fails_in_place_choice parsers : fails_in_place (choice parsers).
Proof.
  intros fuel w st r w' Hok. cbn. rewrite Hok. apply choice_loop_fails.
Qed.

Lemma fails_in_place_manyOne parser : fails_in_place (manyOne parser).
Proof.
  intros fuel w st r w' Hok. cbn. rewrite Hok. rewrite manyOne_loop_many.
  destruct (many_loop parser fuel fuel w st st [])
    as [[[e last] out] w1| |] eqn:Hloop; cbn; try discriminate.
  destruct (_ =? _)%nat; intros [= <- <-]; cbn; [reflexivity |].
  apply many_loop_ok in Hloop; congruence.
Qed.

Lemma fails_in_place_sepByOne sep val : fails_in_place (sepByOne sep val).
Proof.
  intros fuel w st r w' Hok. cbn. rewrite Hok.
  destruct (sepBy_loop sep val fuel fuel w st [])
    as [[[stop thing] out] w1| |] eqn:Hloop; cbn; try discriminate.
  destruct (_ =? _)%nat; intros [= <- <-]; cbn; [reflexivity |].
  destruct (sepBy_loop_sound _ _ _ _ _ _ _ _ _ _ _ Hloop) as (rs & Halt & _).
  apply alternates_stop_ok in Halt; congruence.
Qed.

(** C8, as the code has it.  Across every step of a parser built from the
    public primitives and combinators other than [setCurState], started on a
    state whose index is an offset into the target, the target stays the same
    and the index does not decrease, whether the step succeeds or fails, and
    it stays an offset into the target; so it is in every state reached from
    the initial state of [run].  A pattern matcher, a literal matcher,
    [choice], [manyOne] and [sepByOne] leave the index unchanged when they
    fail on a non-error state. *)
Theorem index_offset_monotone :
  (forall p,
      Public p ->
      forall (fuel : nat) w s r w',
        p fuel w s = Done r w' ->
        in_bounds s ->
        target r = target s
        /\ index s <= index r <= Z.of_nat (length (target s)))
  /\ (forall p text (fuel : nat) w r w',
         Public p ->
         run p text fuel w = Done r w' ->
         target r = text /\ 0 <= index r <= Z.of_nat (length text))
  /\ (forall p,
         is_matcher p
         \/ (exists parsers, p = choice parsers)
         \/ (exists parser, p = manyOne parser)
         \/ (exists sep value, p = sepByOne sep value) ->
         fails_in_place p).
Proof.
  split; [| split].
  - intros p Hp fuel w s r w' Hrun Hb.
    exact (Public_index_safe p Hp fuel w s r w' Hrun Hb).
  - intros p text fuel w r w' Hp Hrun.
    assert (Hb : in_bounds (initialState text)) by (unfold in_bounds; cbn; lia).
    destruct (Public_index_safe p Hp fuel w _ r w' Hrun Hb) as [Ht Hi].
    cbn in Ht, Hi. split; [assumption | lia].
  - intros p [Hm | [(ps & ->) | [(q & ->) | (sep & val & ->)]]].
    + by apply fails_in_place_matcher.
    + apply fails_in_place_choice.
    + apply fails_in_place_manyOne.
    + apply fails_in_place_sepByOne.
Qed.

Lemma index_offset_monotone_witness :
  let r := mkState (js "a1") 2 (VArr [VStr (js "a"); VStr (js "1")]) false VNull
             [] (VStr (js "1")) 2 2 in
  target r = js "a1" /\ 0 <= index r <= Z.of_nat (length (js "a1")).
Proof.
  intros r.
  destruct index_offset_monotone as (_ & H & _).
  apply (H (sequenceOf [str (js "a"); digits]) (js "a1") O empty_world r
           empty_world).
  - apply Public_sequenceOf.
    constructor; [apply Public_str |].
    constructor; [apply Public_digits | constructor].
  - vm_compute. reflexivity.
Defined.

(** The index does move on a failing step, and [setCurState] moves it
    anywhere.  On the input [ac], [str "a"] chained with [str "b"] fails and
    returns an error state at index 1, the initial state being at index 0.
    On the input [a], [str "a"] followed by [setCurState] of a state at index
    -1 succeeds with the index going from 1 down to -1. *)
Lemma index_counterexample :
  (exists r w',
      run (chain (str (js "a")) (fun _ => str (js "b"))) (js "ac") O empty_world
      = Done r w'
      /\ isError r = true
      /\ index (initialState (js "ac")) = 0
      /\ index r = 1)
  /\ (exists s1 w1 r w',
         run (str (js "a")) (js "a") O empty_world = Done s1 w1
         /\ index s1 = 1
         /\ setCurState (mkState (js "a") (-1) VNull false VNull [] VNull 0 0)
                        O w1 s1 = Done r w'
         /\ isError r = false
         /\ index r = -1).
Proof.
  split.
  - eexists _, _. split; [vm_compute; reflexivity |]. repeat split.
  - eexists _, _, _, _. split; [vm_compute; reflexivity |].
    split; [reflexivity |]. split; [reflexivity |]. split; reflexivity.
Qed.

(** * The rest of the engine *)

(** ** The suggestion registry *)

Lemma suggested_store key val w k v :
  suggested (store key val w) k v
  <-> suggested w k v \/ (k = key /\ v = val).
Proof.
  unfold suggested, store. cbn.
  destruct (decide (k = key)) as [->|Hne].
  - rewrite lookup_insert_eq. split.
    + intros (set & [= <-] & Hin).
      apply elem_of_union in Hin as [Hin | Hin].
      * left. destruct (suggestions w !! key) as [old|] eqn:Hold.
        -- eauto.
        -- by apply not_elem_of_empty in Hin.
      * right. apply elem_of_singleton in Hin. auto.
    + intros [(set & Hset & Hin) | [_ ->]].
      * rewrite Hset. eexists. split; [reflexivity |].
        apply elem_of_union. by left.
      * eexists. split; [reflexivity |].
        apply elem_of_union. right. by apply elem_of_singleton.
  - rewrite lookup_insert_ne by congruence. split.
    + intros H. by left.
    + intros [H | [-> _]]; [exact H | contradiction].
Qed.

Lemma addSuggestion_spec key val w :
  match addSuggestion key val w with
  | Some w' =>
      w' = store (toString key) (pattern_text val) w
      /\ (suggestions w !! toString key = None ->
          inherited (toString key) = false)
  | None =>
      suggestions w !! toString key = None /\ inherited (toString key) = true
  end.
Proof.
  unfold addSuggestion, store.
  destruct (suggestions w !! toString key) as [set|] eqn:Hset; cbn.
  - split; [by destruct val | discriminate].
  - destruct (inherited _) eqn:Hin; [by split |].
    split; [by destruct val | reflexivity].
Qed.

(** X1.  [addSuggestion key val] raises exactly when no set is filed under
    the key, turned into a string, and the key names a property inherited
    from [Object.prototype].  When it returns, the text of [val] is among the
    suggestions under the key; every suggestion that was there is still
    there and nothing else has been added; the console is untouched; and
    adding the same suggestion again returns and changes nothing. *)
Theorem addSuggestion_lookup key val w :
  (addSuggestion key val w = None
   <-> suggestions w !! toString key = None
       /\ inherited (toString key) = true)
  /\ (forall w',
         addSuggestion key val w = Some w' ->
         suggested w' (toString key) (pattern_text val)
         /\ (forall k v, suggested w k v -> suggested w' k v)
         /\ (forall k v,
                suggested w' k v ->
                suggested w k v \/ (k = toString key /\ v = pattern_text val))
         /\ console w' = console w
         /\ addSuggestion key val w' = Some w').
Proof.
  pose proof (addSuggestion_spec key val w) as Hspec.
  destruct (addSuggestion key val w) as [w1|].
  - destruct Hspec as [-> Hown]. split.
    + split; [discriminate |]. intros [Hnone Hin].
      rewrite (Hown Hnone) in Hin. discriminate.
    + intros w' [= <-]. split; [| split; [| split; [| split]]].
      * apply suggested_store. by right.
      * intros k v H. apply suggested_store. by left.
      * intros k v H. by apply suggested_store.
      * reflexivity.
      * unfold addSuggestion, store. cbn. rewrite lookup_insert_eq.
        do 2 f_equal. rewrite insert_insert_eq. f_equal.
        apply set_eq. intros x. destruct val; cbn; rewrite !elem_of_union; tauto.
  - split; [by split |]. discriminate.
Qed.

Lemma addSuggestion_lookup_witness :
  addSuggestion (VStr (js "constructor")) (PString (js "x")) empty_world = None
  /\ exists w',
       addSuggestion VNull (PString (js "x")) empty_world = Some w'
       /\ suggested w' (js "null") (js "x").
Proof.
  split.
  - apply (proj1 (addSuggestion_lookup (VStr (js "constructor"))
                    (PString (js "x")) empty_world)).
    split; reflexivity.
  - exists (store (js "null") (js "x") empty_world). split; [reflexivity |].
    exact (proj1 (proj2 (addSuggestion_lookup VNull (PString (js "x"))
                           empty_world)
                    (store (js "null") (js "x") empty_world) eq_refl)).
Defined.

Lemma world_le_refl w : world_le w w.
Proof. split; [auto | reflexivity]. Qed.

Lemma world_le_trans w1 w2 w3 : world_le w1 w2 -> world_le w2 w3 -> world_le w1 w3.
Proof.
  intros [H1 P1] [H2 P2]. split; [auto | by etrans].
Qed.

Lemma world_le_filed st val w : world_le w (filed st val w).
Proof.
  split; [intros k v Hs; apply suggested_store; left; exact Hs | reflexivity].
Qed.

Lemma world_le_console_log line w : world_le w (console_log line w).
Proof.
  split; [auto |]. cbn. by apply prefix_app_r.
Qed.

Lemma suggested_filed st val w :
  suggested (filed st val w) (suggest_key st) (pattern_text val).
Proof. apply suggested_store. by right. Qed.

(** X2.  A literal matcher or a pattern matcher that fails on a non-error
    state has filed its pattern, the literal or the text of the regular
    expression, under the diagnostic key of that state: the last matched
    token when the two progress marks agree, the previous result otherwise.
    One that succeeds leaves the registry and the console as they are. *)
Theorem failing_matcher_is_suggested (p : Parser) pattern (fuel : nat) w st r w' :
  p = str pattern
  \/ (exists regex regexType,
        p = regexParserFactory regex regexType /\ pattern = re_text regex) ->
  isError st = false ->
  p fuel w st = Done r w' ->
  (isError r = true ->
   suggested w' (suggest_key st) pattern /\ world_le w w')
  /\ (isError r = false -> w' = w).
Proof.
  intros [-> | (regex & regexType & -> & ->)] Hok; cbn; rewrite Hok.
  - destruct (_ =? _)%nat.
    { was_filed. intros [= <- <-]. split; [| discriminate]. intros _.
      split; [apply (suggested_filed st (PString pattern)) | apply world_le_filed]. }
    destruct (startsWith _ _).
    + destruct (isSeparation _ _); intros [= <- <-]; split; cbn; rewrite ?Hok;
        (discriminate || auto).
    + was_filed. intros [= <- <-]. split; [| discriminate]. intros _.
      split; [apply (suggested_filed st (PString pattern)) | apply world_le_filed].
  - destruct (_ && _).
    { was_filed. intros [= <- <-]. split; [| discriminate]. intros _.
      split; [apply (suggested_filed st (PRegExp regex)) | apply world_le_filed]. }
    destruct (re_match regex _) as [[i m]|].
    + destruct (isSeparation _ _); intros [= <- <-]; split; cbn; rewrite ?Hok;
        (discriminate || auto).
    + was_filed. intros [= <- <-]. split; [| discriminate]. intros _.
      split; [apply (suggested_filed st (PRegExp regex)) | apply world_le_filed].
Qed.

Lemma failing_matcher_is_suggested_witness :
  suggested (filed (initialState (js "abc")) (PString (js "x")) empty_world)
            (js "null") (js "x").
Proof.
  destruct (failing_matcher_is_suggested (str (js "x")) (js "x") O empty_world
              (initialState (js "abc"))
              (updateParserError (initialState (js "abc"))
                 (str_mismatch (js "x") (js "abc") 0))
              (filed (initialState (js "abc")) (PString (js "x")) empty_world))
    as [H _].
  - by left.
  - reflexivity.
  - reflexivity.
  - exact (proj1 (H eq_refl)).
Defined.

(** ** What a run leaves behind *)

Lemma prefix_Array_concat chain msg : chain `prefix_of` Array_concat chain msg.
Proof. destruct msg; cbn; apply prefix_app_r; reflexivity. Qed.

Lemma keeps_history_here w (s r : ParserState) :
  errorChain s `prefix_of` errorChain r ->
  world_le w w /\ errorChain s `prefix_of` errorChain r.
Proof. intros H. split; [apply world_le_refl | exact H]. Qed.

Ltac chain_grows :=
  cbn; first [ reflexivity
             | apply prefix_app_r; reflexivity
             | apply prefix_Array_concat ].

Ltac history_leaf :=
  try was_filed;
  intros [= <- <-];
  first [ apply keeps_history_here; chain_grows
        | split; [apply world_le_filed | chain_grows] ].

Lemma keeps_history_str s : keeps_history (str s).
Proof.
  intros fuel w st r w'. cbn.
  destruct (isError st); [history_leaf |].
  destruct (_ =? _)%nat; [history_leaf |].
  destruct (startsWith _ _); [| history_leaf].
  destruct (isSeparation _ _); history_leaf.
Qed.

Lemma keeps_history_regexParserFactory regex regexType :
  keeps_history (regexParserFactory regex regexType).
Proof.
  intros fuel w st r w'. cbn.
  destruct (isError st); [history_leaf |].
  destruct (_ && _); [history_leaf |].
  destruct (re_match regex _) as [[i m]|]; [| history_leaf].
  destruct (isSeparation _ _); history_leaf.
Qed.

Lemma keeps_history_eat terminal : keeps_history (eat terminal).
Proof.
  intros fuel w st r w'. cbn.
  destruct (isError st); [history_leaf |].
  destruct (negb _); history_leaf.
Qed.

Lemma keeps_history_succeed value : keeps_history (succeed value).
Proof.
  intros fuel w st r w'. cbn. destruct (isError st); history_leaf.
Qed.

Lemma keeps_history_peek : keeps_history peek.
Proof. intros fuel w st r w'. cbn. history_leaf. Qed.

Lemma keeps_history_getCurState : keeps_history getCurState.
Proof. intros fuel w st r w'. cbn. history_leaf. Qed.

Lemma keeps_history_lazy thunkParser :
  keeps_history (thunkParser tt) -> keeps_history (lazy thunkParser).
Proof. intros H fuel w st r w'. cbn. apply H. Qed.

Lemma keeps_history_map parser fn :
  keeps_history parser -> keeps_history (map parser fn).
Proof.
  intros H fuel w st r w'. cbn.
  destruct (parser fuel w st) as [s1 w1| |] eqn:Hp; cbn; try discriminate.
  apply H in Hp. destruct (isError s1); intros [= <- <-]; exact Hp.
Qed.

Lemma keeps_history_errorMap parser fn :
  keeps_history parser -> keeps_history (errorMap parser fn).
Proof.
  intros H fuel w st r w'. cbn.
  destruct (parser fuel w st) as [s1 w1| |] eqn:Hp; cbn; try discriminate.
  apply H in Hp as [Hw Hc]. destruct (isError s1); intros [= <- <-]; cbn.
  - split; [exact Hw |]. etrans; [exact Hc | apply prefix_Array_concat].
  - by split.
Qed.

Lemma keeps_history_chain parser fn :
  keeps_history parser -> (forall st, keeps_history (fn st)) ->
  keeps_history (chain parser fn).
Proof.
  intros H Hfn fuel w st r w'. cbn.
  destruct (parser fuel w st) as [s1 w1| |] eqn:Hp; cbn; try discriminate.
  apply H in Hp as [Hw Hc]. destruct (isError s1).
  - intros [= <- <-]. by split.
  - intros Hrun. apply Hfn in Hrun as [Hw' Hc'].
    split; [by eapply world_le_trans | by etrans].
Qed.

Lemma sequenceOf_loop_history fuel parsers :
  Forall keeps_history parsers ->
  forall w s acc s' out w',
    sequenceOf_loop parsers fuel w s acc = Done (s', out) w' ->
    world_le w w' /\ errorChain s `prefix_of` errorChain s'.
Proof.
  induction 1 as [|p ps Hp Hps IH]; intros w s acc s' out w'; cbn.
  - intros [= <- <- <-]. by apply keeps_history_here.
  - destruct (p fuel w s) as [s1 w1| |] eqn:Hrun; cbn; try discriminate.
    apply Hp in Hrun as [Hw Hc]. intros Hloop. apply IH in Hloop as [Hw' Hc'].
    split; [by eapply world_le_trans | by etrans].
Qed.

Lemma keeps_history_sequenceOf parsers :
  Forall keeps_history parsers -> keeps_history (sequenceOf parsers).
Proof.
  intros H fuel w st r w'. cbn.
  destruct (isError st); [history_leaf |].
  destruct (sequenceOf_loop parsers fuel w st []) as [[s1 out] w1| |] eqn:Hloop;
    cbn; try discriminate.
  apply (sequenceOf_loop_history _ _ H) in Hloop.
  destruct (isError s1); intros [= <- <-]; exact Hloop.
Qed.

Lemma choice_loop_history fuel parsers :
  Forall keeps_history parsers ->
  forall w x token tokenIndex pre r w',
    choice_loop parsers fuel w x token tokenIndex pre = Done r w' ->
    world_le w w' /\ errorChain x `prefix_of` errorChain r.
Proof.
  induction 1 as [|p ps Hp Hps IH]; intros w x tok idx pre r w'; cbn.
  - history_leaf.
  - destruct (p fuel w x) as [s1 w1| |] eqn:Hrun; cbn; try discriminate.
    apply Hp in Hrun as [Hw Hc]. destruct (isError s1); cbn.
    + assert (Hw1 : world_le w (console_log (choice_log s1) w1))
        by (eapply world_le_trans; [exact Hw | apply world_le_console_log]).
      destruct (_ && _); intros Hloop; apply IH in Hloop as [Hw' Hc'];
        (split; [by eapply world_le_trans | exact Hc']).
    + intros [= <- <-]. by split.
Qed.

Lemma keeps_history_choice parsers :
  Forall keeps_history parsers -> keeps_history (choice parsers).
Proof.
  intros H fuel w st r w'. cbn.
  destruct (isError st); [history_leaf |].
  by apply choice_loop_history.
Qed.

Lemma many_loop_history (parser : Parser) fuel :
  keeps_history parser ->
  forall iters w s lastSuccess acc e last out w',
    many_loop parser iters fuel w s lastSuccess acc = Done (e, last, out) w' ->
    world_le w w' /\ errorChain s `prefix_of` errorChain e.
Proof.
  intros Hp. induction iters as [|iters IH];
    intros w s lastSuccess acc e last out w'; cbn; [discriminate |].
  destruct (parser fuel w s) as [s1 w1| |] eqn:Hrun; cbn; try discriminate.
  apply Hp in Hrun as [Hw Hc]. destruct (isError s1); cbn.
  - intros [= <- <- <- <-]. by split.
  - intros Hloop. apply IH in Hloop as [Hw' Hc'].
    split; [by eapply world_le_trans | by etrans].
Qed.

Lemma keeps_history_many parser :
  keeps_history parser -> keeps_history (many parser).
Proof.
  intros H fuel w st r w'. cbn.
  destruct (isError st); [history_leaf |].
  destruct (many_loop parser fuel fuel w st st [])
    as [[[e last] out] w1| |] eqn:Hloop; cbn; try discriminate.
  apply (many_loop_history _ _ H) in Hloop. intros [= <- <-]. exact Hloop.
Qed.

Lemma keeps_history_manyOne parser :
  keeps_history parser -> keeps_history (manyOne parser).
Proof.
  intros H fuel w st r w'. cbn.
  destruct (isError st); [history_leaf |].
  rewrite manyOne_loop_many.
  destruct (many_loop parser fuel fuel w st st [])
    as [[[e last] out] w1| |] eqn:Hloop; cbn; try discriminate.
  apply (many_loop_history _ _ H) in Hloop as [Hw Hc].
  destruct (_ =? _)%nat; intros [= <- <-]; cbn; (split; [exact Hw |]).
  - etrans; [exact Hc | apply prefix_app_r; reflexivity].
  - exact Hc.
Qed.

Lemma sepBy_loop_history (sep val : Parser) fuel :
  keeps_history sep -> keeps_history val ->
  forall iters w s acc stop thing out w',
    sepBy_loop sep val iters fuel w s acc = Done (stop, thing, out) w' ->
    world_le w w' /\ errorChain s `prefix_of` errorChain thing.
Proof.
  intros Hsep Hval. induction iters as [|iters IH];
    intros w s acc stop thing out w'; cbn; [discriminate |].
  destruct (val fuel w s) as [v w1| |] eqn:Hv; cbn; try discriminate.
  apply Hval in Hv as [Hw Hc]. destruct (isError v).
  - intros [= <- <- <- <-]. by split.
  - destruct (sep fuel w1 v) as [s2 w2| |] eqn:Hs2; cbn; try discriminate.
    apply Hsep in Hs2 as [Hw2 Hc2]. destruct (isError s2).
    + intros [= <- <- <- <-]. split; [by eapply world_le_trans | exact Hc].
    + intros Hloop. apply IH in Hloop as [Hw' Hc'].
      split; [eapply world_le_trans; [| exact Hw']; by eapply world_le_trans |].
      etrans; [exact Hc |]. by etrans.
Qed.

Lemma keeps_history_sepBy sep val :
  keeps_history sep -> keeps_history val -> keeps_history (sepBy sep val).
Proof.
  intros Hsep Hval fuel w st r w'. cbn.
  destruct (isError st); [history_leaf |].
  destruct (sepBy_loop sep val fuel fuel w st [])
    as [[[stop thing] out] w1| |] eqn:Hloop; cbn; try discriminate.
  apply (sepBy_loop_history _ _ _ Hsep Hval) in Hloop.
  intros [= <- <-]. exact Hloop.
Qed.

Lemma keeps_history_sepByOne sep val :
  keeps_history sep -> keeps_history val -> keeps_history (sepByOne sep val).
Proof.
  intros Hsep Hval fuel w st r w'. cbn.
  destruct (isError st); [history_leaf |].
  destruct (sepBy_loop sep val fuel fuel w st [])
    as [[[stop thing] out] w1| |] eqn:Hloop; cbn; try discriminate.
  apply (sepBy_loop_history _ _ _ Hsep Hval) in Hloop as [Hw Hc].
  destruct (_ =? _)%nat; intros [= <- <-]; cbn; (split; [exact Hw |]).
  - etrans; [exact Hc | apply prefix_app_r; reflexivity].
  - exact Hc.
Qed.

Lemma sequenceSepBy_loop_history (sep : Parser) parsers fuel :
  keeps_history sep -> Forall keeps_history parsers ->
  forall iters count w s acc s' out count' w',
    sequenceSepBy_loop sep parsers iters count fuel w s acc
    = Done (s', out, count') w' ->
    world_le w w' /\ errorChain s `prefix_of` errorChain s'.
Proof.
  intros Hsep Hps. induction iters as [|iters IH];
    intros count w s acc s' out count' w'; cbn.
  - intros [= <- <- <- <-]. by apply keeps_history_here.
  - destruct (parsers !! count) as [p|] eqn:Hlook; cbn; try discriminate.
    assert (Hp : keeps_history p) by (eapply Forall_lookup_1; eauto).
    destruct (p fuel w s) as [s1 w1| |] eqn:Hrun; cbn; try discriminate.
    destruct (sep fuel w1 s1) as [s2 w2| |] eqn:Hrun2; cbn; try discriminate.
    apply Hp in Hrun as [Hw1 Hc1]. apply Hsep in Hrun2 as [Hw2 Hc2].
    intros Hloop. apply IH in Hloop as [Hw' Hc'].
    split; [eapply world_le_trans; [| exact Hw']; by eapply world_le_trans |].
    etrans; [exact Hc1 |]. by etrans.
Qed.

Lemma keeps_history_sequenceSepBy sep parsers :
  keeps_history sep -> Forall keeps_history parsers ->
  keeps_history (sequenceSepBy sep parsers).
Proof.
  intros Hsep Hps fuel w st r w'. cbn.
  destruct (isError st); [history_leaf |].
  destruct (sequenceSepBy_loop sep parsers (length parsers - 1) 0 fuel w st [])
    as [[[s1 out] count] w1| |] eqn:Hloop; cbn; try discriminate.
  apply (sequenceSepBy_loop_history _ _ _ Hsep Hps) in Hloop as [Hw Hc].
  destruct (parsers !! count) as [p|] eqn:Hlook; cbn; try discriminate.
  assert (Hp : keeps_history p) by (eapply Forall_lookup_1; eauto).
  destruct (p fuel w1 s1) as [s2 w2| |] eqn:Hrun; cbn; try discriminate.
  apply Hp in Hrun as [Hw2 Hc2].
  destruct (isError s2); intros [= <- <-];
    (split; [by eapply world_le_trans | by etrans]).
Qed.

Lemma Public_keeps_history p : Public p -> keeps_history p.
Proof.
  revert p.
  apply (Public_min keeps_history (Forall keeps_history));
    eauto using keeps_history_regexParserFactory, keeps_history_str,
      keeps_history_eat, keeps_history_sequenceOf, keeps_history_choice,
      keeps_history_many, keeps_history_manyOne, keeps_history_sepBy,
      keeps_history_sepByOne, keeps_history_succeed, keeps_history_lazy,
      keeps_history_sequenceSepBy, keeps_history_peek,
      keeps_history_getCurState, keeps_history_map, keeps_history_errorMap,
      keeps_history_chain.
Qed.



(** X4.  The [errorChain] is append-only: across every step of a parser
    built from the public primitives and combinators other than
    [setCurState], the chain of the state handed in is a prefix of the chain
    of the state returned, whether the step succeeds, fails or recovers. *)
Theorem errorChain_append_only p :
  Public p ->
  forall (fuel : nat) w s r w',
    p fuel w s = Done r w' ->
    errorChain s `prefix_of` errorChain r.
Proof.
  intros Hp fuel w s r w' Hrun.
  exact (proj2 (Public_keeps_history p Hp fuel w s r w' Hrun)).
Qed.

Lemma errorChain_append_only_witness :
  errorChain (initialState (js "ab"))
  `prefix_of`
  errorChain (mkState (js "ab") 1 (VArr [VStr (js "a")]) false VNull
                [str_mismatch (js "a") (js "ab") 1] (VStr (js "a")) 1 1).
Proof.
  apply (errorChain_append_only (many (str (js "a")))
           (Public_many _ (Public_str _)) 3%nat empty_world
           (initialState (js "ab")) _
           (filed (mkState (js "ab") 1 (VStr (js "a")) false VNull []
                       (VStr (js "a")) 1 1) (PString (js "a")) empty_world)).
  vm_compute. reflexivity.
Defined.

(** ** When a matcher succeeds *)



Lemma span_spec cls (t : jsstring) :
  exists rest,
    t = span cls t ++ rest
    /\ Forall (fun c => cls c = true) (span cls t)
    /\ match rest with [] => True | c :: _ => cls c = false end.
Proof.
  induction t as [|c t (rest & Ht & Hall & Hrest)]; cbn.
  - exists []. repeat split. constructor.
  - destruct (cls c) eqn:Hc.
    + exists rest. cbn. split; [by rewrite <- Ht |]. split; [by constructor | exact Hrest].
    + exists (c :: t). repeat split; [constructor | exact Hc].
Qed.



(** ** Eating up to a terminal *)

Lemma startsWith_take_self (t : jsstring) :
  forall n, startsWith t (take n t) = true.
Proof.
  induction t as [|c t IH]; intros [|n]; cbn; try reflexivity.
  by rewrite N.eqb_refl, IH.
Qed.

Lemma slice_from_zero (t : jsstring) : slice_from t 0 = t.
Proof. unfold slice_from, clamp. cbn. by rewrite Z.min_l by lia. Qed.

(** X7.  On a non-error state whose index is an offset into the target,
    [eat] never fails and leaves the registry alone.  It returns the text
    from the current offset up to the first match of the terminal, which is
    what the target holds between the old index and the new one and may be
    empty, and the input left starts with the match; without a match it
    returns all that is left and moves to the end of the target.  Whatever
    the text is, white space and the empty string included, it becomes the
    last matched token and both marks move to the new index. *)
Theorem eat_up_to_terminal terminal (fuel : nat) w st :
  isError st = false ->
  in_bounds st ->
  re_wf terminal ->
  exists r eaten,
    eat terminal fuel w st = Done r w
    /\ isError r = false
    /\ result r = VStr eaten
    /\ lastMatchedToken r = VStr eaten
    /\ lastMatchedTokenIndex r = index r
    /\ lastMatchedParserIndex r = index r
    /\ index r = index st + Z.of_nat (length eaten)
    /\ slice (target st) (index st) (index r) = eaten
    /\ match re_match terminal (slice_from (target st) (index st)) with
       | Some (i, m) =>
           length eaten = i
           /\ startsWith (slice_from (target st) (index r)) m = true
       | None => index r = Z.of_nat (length (target st))
       end.
Proof.
  intros Hok Hb Hwf.
  pose proof (length_slice_from (target st) (index st) Hb) as Hlen.
  pose proof (slice_from_in_bounds (target st) (index st) Hb) as Hdrop.
  unfold in_bounds in Hb.
  cbn. rewrite Hok.
  destruct (re_match terminal (slice_from (target st) (index st)))
    as [[i m]|] eqn:Hm.
  - apply Hwf in Hm as [Hle Hpiece].
    destruct (Z.eqb_spec (Z.of_nat i) (-1)); [lia |]. cbn.
    assert (Heaten : slice (slice_from (target st) (index st)) 0 (Z.of_nat i)
                     = take i (slice_from (target st) (index st))).
    { rewrite <- (Z.add_0_l (Z.of_nat i)).
      rewrite slice_between by lia. by rewrite slice_from_zero. }
    rewrite Heaten.
    assert (Hi : length (take i (slice_from (target st) (index st))) = i)
      by (rewrite length_take; lia).
    eexists _, _. split; [reflexivity |]. cbn. rewrite Hi.
    repeat split; auto.
    + rewrite slice_between by lia. reflexivity.
    + rewrite slice_from_in_bounds by lia.
      replace (Z.to_nat (index st + Z.of_nat i))
        with (Z.to_nat (index st) + i)%nat by lia.
      rewrite <- drop_drop, <- Hdrop.
      pose proof (startsWith_take_self
                    (drop i (slice_from (target st) (index st))) (length m)) as H.
      by rewrite <- Hpiece in H.
  - cbn. eexists _, _. split; [reflexivity |]. cbn.
    repeat split; auto; try lia.
    replace (Z.of_nat (length (target st)))
      with (index st
            + Z.of_nat (length (slice_from (target st) (index st)))) by lia.
    rewrite slice_between by lia. apply take_ge. lia.
Qed.

Lemma eat_up_to_terminal_witness :
  exists r eaten,
    eat (re_char (js "/;/") 59) O empty_world (initialState (js "ab;c"))
    = Done r empty_world
    /\ isError r = false
    /\ result r = VStr eaten
    /\ index r = 0 + Z.of_nat (length eaten).
Proof.
  destruct (eat_up_to_terminal (re_char (js "/;/") 59) O empty_world
              (initialState (js "ab;c")) eq_refl)
    as (r & eaten & Hrun & He & Hres & _ & _ & _ & Hi & _).
  - unfold in_bounds. cbn. lia.
  - apply re_wf_char.
  - exists r, eaten. auto.
Defined.

(** ** Laws of [map], [chain] and [errorMap] *)

Lemma updateParserResult_same s : updateParserResult s (result s) = s.
Proof. by destruct s. Qed.

(** X8.  [map] is a functor on parsers: mapping the identity changes
    nothing, mapping twice is mapping the composite, and [map] is [chain]
    followed by [succeed] of the transformed result. *)
Theorem map_functor_laws (p : Parser) f g (fuel : nat) w s :
  map p (fun v => v) fuel w s = p fuel w s
  /\ map (map p f) g fuel w s = map p (fun v => g (f v)) fuel w s
  /\ map p f fuel w s = chain p (fun st => succeed (f (result st))) fuel w s.
Proof.
  cbn. destruct (p fuel w s) as [s1 w1| |]; cbn; [| by repeat split ..].
  destruct (isError s1) eqn:Hs1; cbn; rewrite ?Hs1; repeat split.
  by rewrite updateParserResult_same.
Qed.

(** X9.  [chain] is associative, [getCurState] is a unit on its right, and
    on a non-error state [succeed] is a unit on its left: the function is
    handed the state with the value as its result, and its parser is run on
    that state. *)
Theorem chain_monad_laws (p : Parser) f g (fuel : nat) w s :
  chain (chain p f) g fuel w s = chain p (fun st => chain (f st) g) fuel w s
  /\ chain p (fun _ => getCurState) fuel w s = p fuel w s
  /\ (forall v,
         isError s = false ->
         chain (succeed v) f fuel w s
         = f (updateParserResult s v) fuel w (updateParserResult s v)).
Proof.
  split; [| split].
  - cbn. destruct (p fuel w s) as [s1 w1| |]; cbn; try reflexivity.
    destruct (isError s1) eqn:Hs1; cbn; [by rewrite Hs1 | reflexivity].
  - cbn. destruct (p fuel w s) as [s1 w1| |]; cbn; try reflexivity.
    by destruct (isError s1).
  - intros v Hok. cbn. rewrite Hok. cbn. by rewrite Hok.
Qed.

Lemma chain_monad_laws_witness :
  chain (succeed (VStr (js "v"))) (fun st => str (toString (result st)))
        O empty_world (initialState (js "vw"))
  = str (js "v") O empty_world
        (updateParserResult (initialState (js "vw")) (VStr (js "v"))).
Proof.
  destruct (chain_monad_laws (succeed (VStr (js "v")))
              (fun st => str (toString (result st))) (fun _ => getCurState)
              O empty_world (initialState (js "vw"))) as (_ & _ & H).
  exact (H (VStr (js "v")) eq_refl).
Defined.

(** X10.  [errorMap] changes neither whether the parser fails nor where: the
    state it returns has the flag, the target, the index and the result of
    the state the parser returned, and is that state when it is not an
    error.  On an error the message becomes what the function makes of the
    old message and the index, and is appended to the chain.  An error that
    was already there when [errorMap] is entered is relabelled in the same
    way. *)
Theorem errorMap_relabels (p : Parser) fn (fuel : nat) w s r0 w' :
  p fuel w s = Done r0 w' ->
  exists r,
    errorMap p fn fuel w s = Done r w'
    /\ isError r = isError r0
    /\ target r = target r0
    /\ index r = index r0
    /\ result r = result r0
    /\ (isError r0 = false -> r = r0)
    /\ (isError r0 = true ->
        error r = fn (error r0) (index r0)
        /\ errorChain r
           = Array_concat (errorChain r0) (fn (error r0) (index r0)))
    /\ (passes_errors p -> isError s = true ->
        r = updateParserError s (fn (error s) (index s))).
Proof.
  intros Hp. cbn. rewrite Hp. cbn.
  destruct (isError r0) eqn:Hr0; cbn; eexists; (split; [reflexivity |]); cbn;
    repeat split; auto; try discriminate.
  - intros Hpass Hs. rewrite (Hpass fuel w s Hs) in Hp. by injection Hp as <- <-.
  - intros Hpass Hs. rewrite (Hpass fuel w s Hs) in Hp. injection Hp as <- <-.
    congruence.
Qed.

Lemma errorMap_relabels_witness :
  exists r,
    errorMap (str (js "b")) (fun _ _ => VStr (js "expected b")) O empty_world
             (initialState (js "a"))
    = Done r (filed (initialState (js "a")) (PString (js "b")) empty_world)
    /\ isError r = true
    /\ index r = 0.
Proof.
  destruct (errorMap_relabels (str (js "b")) (fun _ _ => VStr (js "expected b"))
              O empty_world (initialState (js "a"))
              (updateParserError (initialState (js "a"))
                 (str_mismatch (js "b") (js "a") 0))
              (filed (initialState (js "a")) (PString (js "b")) empty_world)
              eq_refl)
    as (r & Hrun & He & _ & Hi & _).
  exists r. auto.
Defined.

(** ** Combinators defined from others *)

(** X11.  When the left parser, the content parser and the right parser
    succeed one after the other, [between] returns the state the right
    parser returned with the result of the content parser as its result;
    and, when the content and right parsers hand error states back
    untouched, [between] succeeds in that case only. *)
Theorem between_keeps_content (l r c : Parser) (fuel : nat) w x :
  isError x = false ->
  (forall s1 w1 s2 w2 s3 w3,
      l fuel w x = Done s1 w1 -> isError s1 = false ->
      c fuel w1 s1 = Done s2 w2 -> isError s2 = false ->
      r fuel w2 s2 = Done s3 w3 -> isError s3 = false ->
      between l r c fuel w x = Done (updateParserResult s3 (result s2)) w3)
  /\ (passes_errors c -> passes_errors r ->
      forall out w',
        between l r c fuel w x = Done out w' ->
        isError out = false ->
        exists s1 w1 s2 w2 s3,
          l fuel w x = Done s1 w1 /\ isError s1 = false
          /\ c fuel w1 s1 = Done s2 w2 /\ isError s2 = false
          /\ r fuel w2 s2 = Done s3 w' /\ isError s3 = false
          /\ out = updateParserResult s3 (result s2)).
Proof.
  intros Hok. split.
  - intros s1 w1 s2 w2 s3 w3 Hl H1 Hc H2 Hr H3.
    cbn. rewrite Hok. cbn. rewrite Hl. cbn. rewrite Hc. cbn. rewrite Hr. cbn.
    rewrite H3. cbn. by rewrite H3.
  - intros Hpc Hpr out w'. cbn. rewrite Hok. cbn.
    destruct (l fuel w x) as [s1 w1| |] eqn:Hl; cbn; try discriminate.
    destruct (isError s1) eqn:H1.
    { rewrite (Hpc fuel w1 s1 H1). cbn. rewrite (Hpr fuel w1 s1 H1). cbn.
      rewrite H1. cbn. rewrite H1. intros [= <- <-]. congruence. }
    destruct (c fuel w1 s1) as [s2 w2| |] eqn:Hc; cbn; try discriminate.
    destruct (isError s2) eqn:H2.
    { rewrite (Hpr fuel w2 s2 H2). cbn.
      rewrite H2. cbn. rewrite H2. intros [= <- <-]. congruence. }
    destruct (r fuel w2 s2) as [s3 w3| |] eqn:Hr; cbn; try discriminate.
    destruct (isError s3) eqn:H3; cbn; rewrite H3; intros [= <- <-] Hout;
      [congruence |].
    exists s1, w1, s2, w2, s3. repeat split; auto.
Qed.

Lemma between_keeps_content_witness :
  between (str (js "(")) (str (js ")")) digits O empty_world
          (initialState (js "(1)"))
  = Done (updateParserResult
            (mkState (js "(1)") 3 (VStr (js ")")) false VNull []
               (VStr (js ")")) 3 3)
            (VStr (js "1"))) empty_world.
Proof.
  destruct (between_keeps_content (str (js "(")) (str (js ")")) digits O
              empty_world (initialState (js "(1)")) eq_refl) as [H _].
  apply (H (mkState (js "(1)") 1 (VStr (js "(")) false VNull []
              (VStr (js "(")) 1 1) empty_world
           (mkState (js "(1)") 2 (VStr (js "1")) false VNull []
              (VStr (js "1")) 2 2) empty_world);
    reflexivity.
Defined.

(** X12.  [oneOrZero] does not fail: on a non-error state on which the
    parser returns, it returns the state of the parser when that is not an
    error, and otherwise the starting state with [null] as its result, the
    marks and the chain of the failed attempt being dropped and its message
    logged. *)
Theorem oneOrZero_never_fails (p : Parser) (fuel : nat) w x r0 w1 :
  isError x = false ->
  p fuel w x = Done r0 w1 ->
  exists r w',
    oneOrZero p fuel w x = Done r w'
    /\ isError r = false
    /\ (isError r0 = false -> r = r0 /\ w' = w1)
    /\ (isError r0 = true ->
        r = updateParserResult x VNull
        /\ w' = console_log (choice_log r0) w1).
Proof.
  intros Hok Hp. cbn. rewrite Hok, Hp. cbn.
  destruct (isError r0) eqn:Hr0; cbn.
  - destruct (_ && _); cbn; rewrite Hok; cbn; eexists _, _;
      (split; [reflexivity |]); cbn; repeat split; auto; discriminate.
  - eexists _, _. split; [reflexivity |]. repeat split; auto; discriminate.
Qed.

Lemma oneOrZero_never_fails_witness :
  exists r w',
    oneOrZero (str (js "-")) O empty_world (initialState (js "7")) = Done r w'
    /\ isError r = false.
Proof.
  destruct (oneOrZero_never_fails (str (js "-")) O empty_world
              (initialState (js "7"))
              (updateParserError (initialState (js "7"))
                 (str_mismatch (js "-") (js "7") 0))
              (filed (initialState (js "7")) (PString (js "-")) empty_world)
              eq_refl eq_refl)
    as (r & w' & Hrun & He & _).
  exists r, w'. auto.
Defined.

(** ** One or more separated values *)

Lemma alternates_first_value (sep val : Parser) fuel w x rs stop thing w' v w1 :
  alternates sep val fuel w x rs stop thing w' ->
  val fuel w x = Done v w1 ->
  (isError v = false -> rs <> [])
  /\ (rs = [] -> isError v = true).
Proof.
  intros Halt Hv.
  destruct Halt as [w x e w' He Herr
                   | w x v' w1' e w2 Hv' Hok Hs He
                   | w x v' w1' s2 w2 rs stop thing w3 Hv' Hok Hs Hs2 Hrest];
    rewrite Hv in *.
  - injection He as <- <-. split; [congruence | auto].
  - split; [discriminate | discriminate].
  - split; [discriminate | discriminate].
Qed.

(** X13.  [sepByOne] is [sepBy] with an arity check.  On a non-error state,
    when the value parser fails at the first attempt [sepByOne] returns an
    error state at the starting index with its own message; when the first
    value is parsed it returns what [sepBy] returns; and it returns an error
    state in the first case only. *)
Theorem sepByOne_as_sepBy (sep val : Parser) (fuel : nat) w x :
  isError x = false ->
  (forall e w1,
      val fuel w x = Done e w1 ->
      isError e = true ->
      (0 < fuel)%nat ->
      exists r,
        sepByOne sep val fuel w x = Done r w1
        /\ r = updateParserError (withDiagnostics x e) (sepByOne_error x)
        /\ isError r = true
        /\ index r = index x)
  /\ (forall v w1,
         val fuel w x = Done v w1 ->
         isError v = false ->
         sepByOne sep val fuel w x = sepBy sep val fuel w x)
  /\ (forall r w',
         sepByOne sep val fuel w x = Done r w' ->
         isError r = true ->
         exists e w1, val fuel w x = Done e w1 /\ isError e = true).
Proof.
  intros Hok. split; [| split].
  - intros e w1 Hv He Hfuel. eexists. split; [| repeat split].
    cbn. rewrite Hok. destruct fuel as [|iters]; [lia |]. cbn.
    rewrite Hv. cbn. rewrite He. reflexivity.
  - intros v w1 Hv Hvok. cbn. rewrite Hok.
    destruct (sepBy_loop sep val fuel fuel w x [])
      as [[[stop thing] out] w2| |] eqn:Hloop; cbn; try reflexivity.
    destruct (sepBy_loop_sound _ _ _ _ _ _ _ _ _ _ _ Hloop) as (rs & Halt & ->).
    destruct (alternates_first_value _ _ _ _ _ _ _ _ _ _ _ Halt Hv) as [Hne _].
    destruct rs; [by destruct (Hne Hvok) | reflexivity].
  - intros r w'. cbn. rewrite Hok.
    destruct (sepBy_loop sep val fuel fuel w x [])
      as [[[stop thing] out] w2| |] eqn:Hloop; cbn; try discriminate.
    destruct (sepBy_loop_sound _ _ _ _ _ _ _ _ _ _ _ Hloop) as (rs & Halt & ->).
    destruct rs as [|v rs]; cbn.
    + intros _ _. inversion Halt; subst. eauto.
    + intros [= <- <-]. cbn. intros Hr.
      apply alternates_stop_ok in Halt; congruence.
Qed.

Lemma sepByOne_as_sepBy_witness :
  sepByOne (str (js ",")) digits 3%nat empty_world (initialState (js "1,2"))
  = sepBy (str (js ",")) digits 3%nat empty_world (initialState (js "1,2")).
Proof.
  destruct (sepByOne_as_sepBy (str (js ",")) digits 3%nat empty_world
              (initialState (js "1,2")) eq_refl) as (_ & H & _).
  apply (H (mkState (js "1,2") 1 (VStr (js "1")) false VNull []
              (VStr (js "1")) 1 1) empty_world); reflexivity.
Defined.

(** X14.  A separator that is matched is consumed even when no value
    follows it: when the value parser succeeds, the separator succeeds and
    the value parser then fails, [sepBy] returns without an error the single
    value collected, at the index the separator reached, with the marks and
    the chain of the failed attempt. *)
Theorem sepBy_swallows_trailing_separator (sep val : Parser) (fuel : nat)
  w x v w1 s2 w2 e w3 :
  isError x = false ->
  val fuel w x = Done v w1 -> isError v = false ->
  sep fuel w1 v = Done s2 w2 -> isError s2 = false ->
  val fuel w2 s2 = Done e w3 -> isError e = true ->
  (1 < fuel)%nat ->
  exists r,
    sepBy sep val fuel w x = Done r w3
    /\ isError r = false
    /\ result r = VArr [result v]
    /\ index r = index s2
    /\ lastMatchedTokenIndex r = lastMatchedTokenIndex e
    /\ errorChain r = errorChain e.
Proof.
  intros Hok Hv Hvok Hs Hsok He Herr Hfuel.
  destruct fuel as [|[|iters]]; try lia.
  eexists. split.
  - cbn. rewrite Hok. cbn. rewrite Hv. cbn. rewrite Hvok. rewrite Hs. cbn.
    rewrite Hsok. rewrite He. cbn. rewrite Herr. reflexivity.
  - cbn. repeat split; auto.
Qed.

Lemma sepBy_swallows_trailing_separator_witness :
  exists r,
    sepBy (str (js ",")) digits 2%nat empty_world (initialState (js "1,"))
    = Done r (filed (mkState (js "1,") 2 (VStr (js ",")) false VNull []
                         (VStr (js "1")) 1 1)
                (PRegExp (re_class_plus (js "/^[0-9]+/") is_digit)) empty_world)
    /\ isError r = false
    /\ result r = VArr [VStr (js "1")]
    /\ index r = 2.
Proof.
  destruct (sepBy_swallows_trailing_separator (str (js ",")) digits 2%nat
              empty_world (initialState (js "1,"))
              (mkState (js "1,") 1 (VStr (js "1")) false VNull []
                 (VStr (js "1")) 1 1) empty_world
              (mkState (js "1,") 2 (VStr (js ",")) false VNull []
                 (VStr (js "1")) 1 1) empty_world
              (updateParserError
                 (mkState (js "1,") 2 (VStr (js ",")) false VNull []
                    (VStr (js "1")) 1 1)
                 (regex_unexpected (re_class_plus (js "/^[0-9]+/") is_digit)
                    (js "digits") 2))
              (filed (mkState (js "1,") 2 (VStr (js ",")) false VNull []
                          (VStr (js "1")) 1 1)
                 (PRegExp (re_class_plus (js "/^[0-9]+/") is_digit)) empty_world))
    as (r & Hrun & He & Hres & Hi & _); try reflexivity; try lia.
  exists r. auto.
Defined.

(** ** The size of the result of a sequence *)

Lemma sequenceOf_loop_length fuel parsers :
  forall w s acc s' out w',
    sequenceOf_loop parsers fuel w s acc = Done (s', out) w' ->
    length out = (length acc + length parsers)%nat.
Proof.
  induction parsers as [|p ps IH]; intros w s acc s' out w'; cbn.
  - intros [= <- <- <-]. lia.
  - destruct (p fuel w s) as [s1 w1| |]; cbn; try discriminate.
    intros Hloop. apply IH in Hloop. rewrite length_app in Hloop. cbn in Hloop. lia.
Qed.

Lemma sequenceSepBy_loop_length (sep : Parser) parsers fuel :
  forall iters count w s acc s' out count' w',
    sequenceSepBy_loop sep parsers iters count fuel w s acc
    = Done (s', out, count') w' ->
    length out = (length acc + iters)%nat /\ count' = (count + iters)%nat.
Proof.
  induction iters as [|iters IH]; intros count w s acc s' out count' w'; cbn.
  - intros [= <- <- <- <-]. lia.
  - destruct (parsers !! count) as [p|]; cbn; try discriminate.
    destruct (p fuel w s) as [s1 w1| |]; cbn; try discriminate.
    destruct (sep fuel w1 s1) as [s2 w2| |]; cbn; try discriminate.
    intros Hloop. apply IH in Hloop as [Hlen ->].
    rewrite length_app in Hlen. cbn in Hlen. lia.
Qed.

(** X15.  When [sequenceOf] or [sequenceSepBy] succeeds on a non-error
    state, the result is an array with one entry for each parser of the
    list, whatever the parsers are; the results of the separator are not in
    it, and the list given to [sequenceSepBy] was not empty. *)
Theorem sequence_result_arity :
  (forall parsers (fuel : nat) w x r w',
      isError x = false ->
      sequenceOf parsers fuel w x = Done r w' ->
      isError r = false ->
      exists rs, result r = VArr rs /\ length rs = length parsers)
  /\ (forall (sep : Parser) parsers (fuel : nat) w x r w',
         isError x = false ->
         sequenceSepBy sep parsers fuel w x = Done r w' ->
         isError r = false ->
         exists rs,
           result r = VArr rs /\ length rs = length parsers /\ parsers <> []).
Proof.
  split.
  - intros parsers fuel w x r w' Hok. cbn. rewrite Hok.
    destruct (sequenceOf_loop parsers fuel w x []) as [[s1 out] w1| |] eqn:Hloop;
      cbn; try discriminate.
    apply sequenceOf_loop_length in Hloop.
    destruct (isError s1) eqn:Hs1; intros [= <- <-] Hr; [congruence |].
    exists out. split; [reflexivity | exact Hloop].
  - intros sep parsers fuel w x r w' Hok. cbn. rewrite Hok.
    destruct (sequenceSepBy_loop sep parsers (length parsers - 1) 0 fuel w x [])
      as [[[s1 out] count] w1| |] eqn:Hloop; cbn; try discriminate.
    apply sequenceSepBy_loop_length in Hloop as [Hlen ->].
    destruct (parsers !! _) as [p|] eqn:Hlook; cbn; try discriminate.
    apply lookup_lt_Some in Hlook.
    destruct (p fuel w1 s1) as [s2 w2| |]; cbn; try discriminate.
    destruct (isError s2) eqn:Hs2; intros [= <- <-] Hr; [congruence |].
    eexists. split; [reflexivity |]. split.
    + rewrite length_app. cbn in *. lia.
    + intros ->. cbn in Hlook. lia.
Qed.

Lemma sequence_result_arity_witness :
  exists rs,
    result (mkState (js "a1") 2 (VArr [VStr (js "a"); VStr (js "1")]) false VNull
              [] (VStr (js "1")) 2 2) = VArr rs
    /\ length rs = length [str (js "a"); digits].
Proof.
  destruct sequence_result_arity as [H _].
  apply (H [str (js "a"); digits] O empty_world (initialState (js "a1")) _
           empty_world); reflexivity.
Defined.

(** ** Repetition comes to an end *)

Lemma many_loop_halts (parser : Parser) (fuel : nat) :
  index_safe parser -> consumes parser -> returns_at parser fuel ->
  forall iters w s last acc,
    isError s = false ->
    in_bounds s ->
    Z.of_nat (length (target s)) - index s < Z.of_nat iters ->
    exists out w', many_loop parser iters fuel w s last acc = Done out w'.
Proof.
  intros Hsafe Hcons Hret.
  induction iters as [|iters IH]; intros w s last acc Hok Hb Hlt.
  - unfold in_bounds in Hb. lia.
  - cbn. destruct (Hret w s) as (r & w1 & Hr). rewrite Hr. cbn.
    destruct (isError r) eqn:He; cbn; [eauto |].
    destruct (Hsafe _ _ _ _ _ Hr Hb) as [Ht Hi].
    pose proof (Hcons _ _ _ _ _ Hok Hr He) as Hmove.
    unfold in_bounds in Hb.
    apply IH; [exact He | unfold in_bounds; rewrite Ht; lia | rewrite Ht; lia].
Qed.

(** A parser for one character that fails at the end of the input without
    filing anything. *)
Lemma re_wf_any_opt : re_wf re_any_opt.
Proof.
  unfold re_wf. cbn. intros t i m H. injection H as <- <-.
  destruct t as [|c t']; cbn; [split; [lia | reflexivity] |].
  rewrite take_0. cbn. split; [lia | reflexivity].
Qed.

Lemma index_safe_one_character regexType :
  index_safe (chain (regexParserFactory re_any_opt regexType)
                    (fun st => match result st with
                               | VStr [] => choice []
                               | _ => getCurState
                               end)).
Proof.
  apply index_safe_chain.
  - apply index_safe_regexParserFactory, re_wf_any_opt.
  - intros st. destruct (result st) as [| | |[|c l]|];
      first [apply index_safe_getCurState
            | apply index_safe_choice; constructor].
Qed.

Lemma consumes_one_character regexType :
  consumes (chain (regexParserFactory re_any_opt regexType)
                  (fun st => match result st with
                             | VStr [] => choice []
                             | _ => getCurState
                             end)).
Proof.
  intros fuel w st r w' Hok. cbn. rewrite Hok. cbn. rewrite andb_false_r.
  destruct (take 1 (slice_from (target st) (index st))) as [|c l] eqn:Ht;
    destruct (isSeparation _ _); cbn; rewrite Hok; cbn;
    intros [= <- <-]; cbn; first [discriminate | lia].
Qed.

Lemma returns_at_one_character regexType fuel :
  returns_at (chain (regexParserFactory re_any_opt regexType)
                    (fun st => match result st with
                               | VStr [] => choice []
                               | _ => getCurState
                               end)) fuel.
Proof.
  intros w st. cbn. destruct (isError st) eqn:Hok; cbn; [rewrite Hok; eauto |].
  rewrite andb_false_r.
  destruct (take 1 (slice_from (target st) (index st))) as [|c l];
    destruct (isSeparation _ _); cbn; rewrite Hok; cbn; eauto.
Qed.



(** ** A match that starts further on *)

(** X17.  A pattern matcher moves the index by the length of the match, and
    does not look at where in the rest of the input the match starts: the
    result is the matched text, which the target holds at the offset of the
    match, and the text stepped over is as long as the match and starts at
    the old index.  It is the matched text when the match starts at the
    current offset, as it does for an anchored pattern; [caseStr] adds no
    anchor to the text it is given. *)
Theorem pattern_match_offset_ignored regex regexType (fuel : nat) w st i matched :
  isError st = false ->
  in_bounds st ->
  re_wf regex ->
  re_match regex (slice_from (target st) (index st)) = Some (i, matched) ->
  exists r,
    regexParserFactory regex regexType fuel w st = Done r w
    /\ isError r = false
    /\ result r = VStr matched
    /\ index r = index st + Z.of_nat (length matched)
    /\ slice (target st) (index st + Z.of_nat i) (index r + Z.of_nat i) = matched
    /\ slice (target st) (index st) (index r)
       = take (length matched) (slice_from (target st) (index st))
    /\ (i = O -> slice (target st) (index st) (index r) = matched).
Proof.
  intros Hok Hb Hwf Hm.
  pose proof (length_slice_from (target st) (index st) Hb) as Hlen.
  destruct (Hwf _ _ _ Hm) as [Hle Hpiece].
  unfold in_bounds in Hb.
  assert (Hfacts :
    slice (target st) (index st + Z.of_nat i)
          (index st + Z.of_nat (length matched) + Z.of_nat i) = matched
    /\ slice (target st) (index st) (index st + Z.of_nat (length matched))
       = take (length matched) (slice_from (target st) (index st))
    /\ (i = O -> slice (target st) (index st)
                       (index st + Z.of_nat (length matched)) = matched)).
  { assert (Hmid : slice (target st) (index st)
                         (index st + Z.of_nat (length matched))
                   = take (length matched) (slice_from (target st) (index st)))
      by (apply slice_between; lia).
    split; [| split; [exact Hmid |]].
    - replace (index st + Z.of_nat (length matched) + Z.of_nat i)
        with (index st + Z.of_nat i + Z.of_nat (length matched)) by lia.
      rewrite slice_between by lia.
      rewrite Hpiece at 2.
      rewrite !slice_from_in_bounds by lia.
      rewrite drop_drop.
      replace (Z.to_nat (index st + Z.of_nat i))
        with (Z.to_nat (index st) + i)%nat by lia.
      reflexivity.
    - intros ->. rewrite drop_0 in Hpiece. by rewrite Hmid, <- Hpiece. }
  cbn. rewrite Hok. unfold re_test. rewrite Hm. rewrite andb_false_r.
  destruct (isSeparation _ _); eexists; (split; [reflexivity |]); cbn;
    (split; [exact Hok |]); (split; [reflexivity |]);
    (split; [reflexivity |]); exact Hfacts.
Qed.

Lemma pattern_match_offset_ignored_witness :
  exists r,
    regexParserFactory (re_char (js "/;/") 59) (js "caseStr") O empty_world
      (initialState (js "ab;"))
    = Done r empty_world
    /\ isError r = false
    /\ result r = VStr (js ";")
    /\ index r = 1.
Proof.
  destruct (pattern_match_offset_ignored (re_char (js "/;/") 59) (js "caseStr")
              O empty_world (initialState (js "ab;")) 2 (js ";"))
    as (r & Hrun & He & Hres & Hi & _).
  - reflexivity.
  - vm_compute. split; discriminate.
  - apply re_wf_char.
  - vm_compute. reflexivity.
  - exists r. split; [exact Hrun |]. split; [exact He |].
    split; [exact Hres | exact Hi].
Defined.

(** ** Generators *)

(** X18.  [contextual] starts the generator on a non-error state and hands
    the first parser the state with its result cleared to [null]; a
    generator that returns at once gives its value as the result and
    consumes nothing; when the yielded parser fails, its error state is
    returned and the generator is not resumed; when it succeeds, the
    generator is resumed with the state it returned and the parse goes on
    from that state. *)
Theorem contextual_drives_generator parserGenerator (fuel : nat) w x :
  isError x = false ->
  (forall value,
      parserGenerator tt = GReturn value ->
      contextual parserGenerator fuel w x = Done (updateParserResult x value) w)
  /\ (forall (nextParser : Parser) resume s1 w1,
         parserGenerator tt = GYield nextParser resume ->
         nextParser fuel w (updateParserResult x VNull) = Done s1 w1 ->
         contextual parserGenerator fuel w x
         = if isError s1 then Done s1 w1 else runStep (resume s1) fuel w1 s1).
Proof.
  intros Hok. split.
  - intros value Hgen. cbn. rewrite Hok. cbn. rewrite Hok, Hgen. cbn.
    by rewrite Hok.
  - intros nextParser resume s1 w1 Hgen Hrun. cbn. rewrite Hok. cbn.
    rewrite Hok, Hgen. cbn. rewrite Hrun. cbn. reflexivity.
Qed.

Lemma contextual_drives_generator_witness :
  contextual (fun _ => GYield digits (fun st => GReturn (VArr [result st])))
    O empty_world (initialState (js "12"))
  = Done (mkState (js "12") 2 (VArr [VStr (js "12")]) false VNull []
            (VStr (js "12")) 2 2) empty_world.
Proof.
  destruct (contextual_drives_generator
              (fun _ => GYield digits (fun st => GReturn (VArr [result st])))
              O empty_world (initialState (js "12")) eq_refl) as [_ H].
  apply (H digits (fun st => GReturn (VArr [result st]))
           (mkState (js "12") 2 (VStr (js "12")) false VNull []
              (VStr (js "12")) 2 2) empty_world eq_refl).
  vm_compute. reflexivity.
Defined.

(** ** Installing a state *)

Lemma sequenceOf_loop_app fuel ps qs :
  forall w s acc,
    sequenceOf_loop (ps ++ qs) fuel w s acc
    = let* (out, w) := sequenceOf_loop ps fuel w s acc in
      sequenceOf_loop qs fuel w out.1 out.2.
Proof.
  induction ps as [|p ps IH]; intros w s acc; cbn; [reflexivity |].
  destruct (p fuel w s) as [s1 w1| |]; cbn; [apply IH | reflexivity | reflexivity].
Qed.

(** X19.  A sequence does not stop at an error, so [setCurState] at its end
    decides what comes out: whatever the parsers before it did, failed or
    not, when they return the sequence returns the installed state as it is
    when that is an error state, and otherwise the installed state with, as
    result, the results collected on the way, one for each parser, followed
    by the result of the installed state. *)
Theorem setCurState_resets_sequence parsers state (fuel : nat) w x r w1 :
  isError x = false ->
  sequenceOf parsers fuel w x = Done r w1 ->
  exists rs,
    length rs = length parsers
    /\ (isError r = false -> result r = VArr rs)
    /\ sequenceOf (parsers ++ [setCurState state]) fuel w x
       = Done (if isError state then state
               else updateParserResult state (VArr (rs ++ [result state]))) w1.
Proof.
  intros Hok. cbn. rewrite Hok. rewrite sequenceOf_loop_app.
  destruct (sequenceOf_loop parsers fuel w x []) as [[s1 out] w2| |] eqn:Hloop;
    cbn; try discriminate.
  intros Hr. exists out.
  split; [apply sequenceOf_loop_length in Hloop; exact Hloop |].
  split.
  - destruct (isError s1) eqn:Hs1; injection Hr as <- <-; [congruence | reflexivity].
  - assert (w2 = w1) as -> by (destruct (isError s1); congruence).
    destruct (isError state); reflexivity.
Qed.

Lemma setCurState_resets_sequence_witness :
  exists rs,
    length rs = 1%nat
    /\ sequenceOf ([str (js "b")] ++ [setCurState (initialState (js "ok"))])
         O empty_world (initialState (js "a"))
       = Done (updateParserResult (initialState (js "ok")) (VArr (rs ++ [VNull])))
              (filed (initialState (js "a")) (PString (js "b")) empty_world).
Proof.
  destruct (setCurState_resets_sequence [str (js "b")] (initialState (js "ok"))
              O empty_world (initialState (js "a"))
              (updateParserError (initialState (js "a"))
                 (str_mismatch (js "b") (js "a") 0))
              (filed (initialState (js "a")) (PString (js "b")) empty_world)
              eq_refl)
    as (rs & Hlen & _ & Hrun).
  - vm_compute. reflexivity.
  - exists rs. split; [exact Hlen | exact Hrun].
Defined.

(** ** The label of the strict matchers *)

(** X20.  [strictStr] reports its failures under the label of
    [strictCaseStr]: whatever the host makes of the pattern, when either of
    the two fails on a non-error state the error message starts with
    [strictCaseStr: ], so the message does not tell which of them failed. *)
Theorem strictStr_reports_as_strictCaseStr RegExp_new s (fuel : nat) w x r w' :
  isError x = false ->
  strictStr RegExp_new s fuel w x = Done r w'
  \/ strictCaseStr RegExp_new s fuel w x = Done r w' ->
  isError r = true ->
  exists rest, error r = VStr (js "strictCaseStr" ++ js ": " ++ rest).
Proof.
  assert (Htried : js ": Tried match " = js ": " ++ js "Tried match ")
    by reflexivity.
  assert (Hcould : js ": Couldn't match " = js ": " ++ js "Couldn't match ")
    by reflexivity.
  intros Hok [Hrun | Hrun]; revert Hrun; cbn; rewrite Hok;
    (destruct (_ && _);
     [was_filed; intros [= <- <-] _; cbn; unfold regex_unexpected;
      rewrite Htried; rewrite <- (app_assoc (js ": ")); eauto |]);
    (destruct (re_match _ _) as [[i m]|];
     [destruct (isSeparation _ _); intros [= <- <-]; cbn; congruence |]);
    was_filed; intros [= <- <-] _; cbn; unfold regex_mismatch; rewrite Hcould;
    rewrite <- (app_assoc (js ": ")); eauto.
Qed.

Lemma strictStr_reports_as_strictCaseStr_witness :
  exists rest,
    error (updateParserError (initialState (js "ab"))
             (regex_mismatch (re_char (js "^;$") 59) (js "strictCaseStr") 0
                (js "ab")))
    = VStr (js "strictCaseStr" ++ js ": " ++ rest).
Proof.
  apply (strictStr_reports_as_strictCaseStr (fun text _ => re_char text 59)
           (js ";") O empty_world (initialState (js "ab")) _
           (filed (initialState (js "ab"))
              (PRegExp (re_char (js "^;$") 59)) empty_world) eq_refl).
  - left. vm_compute. reflexivity.
  - reflexivity.
Defined.

(** ** Witnesses of the properties above *)

Lemma guarded_parsers_pass_errors_witness :
  str (js "a") O empty_world (updateParserError (initialState (js "a")) VNull)
  = Done (updateParserError (initialState (js "a")) VNull) empty_world.
Proof.
  destruct guarded_parsers_pass_errors as (_ & Hstr & _).
  apply Hstr. reflexivity.
Defined.

Lemma peek_on_success_witness :
  exists r,
    peek O empty_world (initialState (js "a")) = Done r empty_world
    /\ isError r = false
    /\ index r = 0
    /\ result r = VStr (js "a").
Proof.
  destruct (peek_on_success O empty_world (initialState (js "a")) eq_refl)
    as (r & Hrun & He & Hi & Hres & _).
  exists r. split; [exact Hrun |]. split; [exact He |].
  split; [exact Hi | exact Hres].
Defined.

Lemma many_needs_a_failure_witness :
  many (succeed VNull) 5%nat empty_world (initialState (js "abc")) = Timeout.
Proof.
  apply many_needs_a_failure; [| reflexivity].
  intros w s Hs. eexists _, _. cbn. rewrite Hs. split; [reflexivity | exact Hs].
Defined.
